(** * MetaWave QC expression trees and the rule-based simplifier

    A shallow embedding of [src/src/expression.cpp], [src/src/simplifier.cpp]
    and [src/src/core/autogen_cursor/symbol.cpp], followed by the properties
    of the rewriting engine proved over it.

    Conventions of the embedding:
    - [double] is Rocq's primitive binary64 [float]; [==] on doubles is
      [PrimFloat.eqb] (so [NaN == NaN] is false and [0.0 == -0.0] is true).
    - [std::size_t] is a 64-bit unsigned integer, a [Z] reduced modulo [2^64]
      after every arithmetic operation.
    - [std::hash<T>] is implementation-defined: it is an interface
      ([StdHash]) every definition and theorem is generic in.
    - [std::unique_ptr] children are never null; a node owns its children,
      so a tree is an inductive value and [clone] rebuilds it.
    - The string-keyed property bags of [Symbol] and [Expression] are left
      out: none of the functions embedded here reads them. *)

From Stdlib Require Import ZArith String Ascii DecimalString Bool Lia.
From Stdlib Require Import Floats.PrimFloat Floats.FloatOps Floats.SpecFloat.
From Stdlib Require Import Floats.FloatAxioms.
From stdpp Require Import base option list strings gmap.

Local Open Scope string_scope.
Local Open Scope Z_scope.
Set Warnings "-register-all".

(** ** The C++ standard library, as far as the sources use it *)

Module Std.

(** [std::size_t] arithmetic wraps modulo [2^64]. *)
Definition size_t_bits : Z := 64.
Definition size_t (z : Z) : Z := z mod 2 ^ size_t_bits.

(** [std::to_string(int)]. *)
Definition to_string_int (z : Z) : string := NilZero.string_of_int (Z.to_int z).

Definition sign_prefix (negative : bool) : string :=
  if negative then "-" else "".

(** [num / den] rounded to the nearest integer, ties to even ([0 < den]):
    the rounding printf applies to the exact decimal expansion. *)
Definition round_div (num den : Z) : Z :=
  let q := num / den in
  match 2 * (num mod den) ?= den with
  | Lt => q
  | Gt => q + 1
  | Eq => if Z.even q then q else q + 1
  end.

(** [m * 2^e * 10^k], rounded to an integer. *)
Definition scaled (m e k : Z) : Z :=
  let num := m * (if 0 <=? e then 2 ^ e else 1) * (if 0 <=? k then 10 ^ k else 1) in
  let den := (if 0 <=? e then 1 else 2 ^ (- e)) * (if 0 <=? k then 1 else 10 ^ (- k)) in
  round_div num den.

Fixpoint zeros (n : nat) : string :=
  match n with O => "" | S n' => String "0" (zeros n') end.

(** Decimal digits of [z >= 0], left-padded with zeros to [width]. *)
Definition digits (width : nat) (z : Z) : string :=
  let s := to_string_int z in
  zeros (width - String.length s) +:+ s.

Fixpoint strip_trailing_zeros (s : string) : string :=
  match s with
  | EmptyString => EmptyString
  | String c s' =>
      match strip_trailing_zeros s' with
      | EmptyString => if Ascii.eqb c "0" then EmptyString else String c EmptyString
      | t => String c t
      end
  end.

(** The integer [n >= 0] read with its last [decimals] digits after the
    point. *)
Definition fixed_point (decimals : Z) (n : Z) : string * string :=
  let p := 10 ^ decimals in
  (to_string_int (n / p), digits (Z.to_nat decimals) (n mod p)).

(** [printf("%f", x)], which is what [std::to_string(double)] returns.
    A primitive float has one NaN, so a NaN's sign bit is not shown. *)
Definition to_string_double (x : float) : string :=
  match Prim2SF x with
  | S754_zero s => sign_prefix s +:+ "0.000000"
  | S754_infinity s => sign_prefix s +:+ "inf"
  | S754_nan => "nan"
  | S754_finite s m e =>
      let '(i, f) := fixed_point 6 (scaled (Z.pos m) e 6) in
      sign_prefix s +:+ i +:+ "." +:+ f
  end.

(** The least [j >= j0] with [den <= num * 10^(j - j0)]. *)
Fixpoint first_reaching (fuel : nat) (num den j : Z) : Z :=
  match fuel with
  | O => j
  | S fuel' => if den <=? num then j else first_reaching fuel' (10 * num) den (j + 1)
  end.

(** [floor (log10 (m * 2^e))] for [m > 0]. *)
Definition decimal_exponent (m e : Z) : Z :=
  let num := if 0 <=? e then m * 2 ^ e else m in
  let den := if 0 <=? e then 1 else 2 ^ (- e) in
  if den <=? num
  then Z.of_nat (String.length (to_string_int (num / den))) - 1
  else - first_reaching 400 num den 0.

(** [printf("%g", x)] with the default precision 6: what
    [ostream << double] writes on a default-constructed stream. *)
Definition put_double (x : float) : string :=
  match Prim2SF x with
  | S754_zero s => sign_prefix s +:+ "0"
  | S754_infinity s => sign_prefix s +:+ "inf"
  | S754_nan => "nan"
  | S754_finite s m e =>
      let x0 := decimal_exponent (Z.pos m) e in
      let d0 := scaled (Z.pos m) e (5 - x0) in
      let X := if 1000000 <=? d0 then x0 + 1 else x0 in
      let D := if 1000000 <=? d0 then 100000 else d0 in
      let body :=
        if (X <? -4) || (6 <=? X)
        then
          let '(i, f) := fixed_point 5 D in
          let f' := strip_trailing_zeros f in
          i +:+ (if String.eqb f' "" then "" else "." +:+ f')
            +:+ "e" +:+ (if X <? 0 then "-" else "+") +:+ digits 2 (Z.abs X)
        else
          let '(i, f) := fixed_point (5 - X) D in
          let f' := strip_trailing_zeros f in
          i +:+ (if String.eqb f' "" then "" else "." +:+ f')
      in
      sign_prefix s +:+ body
  end.

End Std.

(** [std::hash<std::string>], [std::hash<int>] and [std::hash<double>]:
    the standard fixes none of them. *)
Class StdHash := {
  hash_string : string -> Z;
  hash_int : Z -> Z;
  hash_double : float -> Z;
}.

(** What the standard does require of [std::hash<double>]: keys that
    compare equal with [==] hash alike (so [0.0] and [-0.0] share a hash). *)
Definition hash_double_respects_eq `{StdHash} : Prop :=
  forall a b : float, PrimFloat.eqb a b = true -> hash_double a = hash_double b.

(** ** [symbol.h], [symbol.cpp] *)

Module Sym.

(** [enum class Symbol::Type]. *)
Inductive SymbolType := SCALAR | VARIABLE | CONSTANT | COMPLEX.

Definition SymbolType_to_int (t : SymbolType) : Z :=
  match t with SCALAR => 0 | VARIABLE => 1 | CONSTANT => 2 | COMPLEX => 3 end.

Definition SymbolType_eqb (a b : SymbolType) : bool :=
  SymbolType_to_int a =? SymbolType_to_int b.

(** A [Symbol] object with its dynamic class: [Symbol] itself (whose
    constructor takes any [Type]), [ScalarSymbol] (always [SCALAR], with a
    value) or [ComplexSymbol] (always [COMPLEX], with two parts). *)
Inductive Symbol :=
| BaseSymbol (name_ : string) (type_ : SymbolType)
| ScalarSymbol (name_ : string) (value_ : float)
| ComplexSymbol (name_ : string) (real_ imag_ : float).

Definition name (s : Symbol) : string :=
  match s with
  | BaseSymbol n _ | ScalarSymbol n _ | ComplexSymbol n _ _ => n
  end.

Definition type (s : Symbol) : SymbolType :=
  match s with
  | BaseSymbol _ t => t
  | ScalarSymbol _ _ => SCALAR
  | ComplexSymbol _ _ _ => COMPLEX
  end.

Definition is_scalar (s : Symbol) : bool := SymbolType_eqb (type s) SCALAR.

(** [Symbol::operator==]. *)
Definition eqb (a b : Symbol) : bool :=
  String.eqb (name a) (name b) && SymbolType_eqb (type a) (type b).

(** The two suffixes of [Symbol::to_string], as the UTF-8 bytes of the
    source literals (U+2102 and U+1D9C). *)
Definition complex_suffix : string :=
  String (ascii_of_nat 226) (String (ascii_of_nat 132) (String (ascii_of_nat 130) "")).
Definition constant_suffix : string :=
  String (ascii_of_nat 225) (String (ascii_of_nat 182) (String (ascii_of_nat 156) "")).

(** [Symbol::to_string] and its two overrides. *)
Definition to_string (s : Symbol) : string :=
  match s with
  | BaseSymbol n t =>
      match t with
      | COMPLEX => n +:+ complex_suffix
      | CONSTANT => n +:+ constant_suffix
      | _ => n
      end
  | ScalarSymbol n v => n +:+ "=" +:+ Std.put_double v
  | ComplexSymbol n re im =>
      n +:+ "=" +:+ Std.put_double re
        +:+ (if PrimFloat.leb 0 im then "+" else "")
        +:+ Std.put_double im +:+ "i"
  end.

(** [Symbol::hash]: [h1 ^ (h2 << 1)]. *)
Definition hash `{StdHash} (s : Symbol) : Z :=
  let h1 := Std.size_t (hash_string (name s)) in
  let h2 := Std.size_t (hash_int (SymbolType_to_int (type s))) in
  Z.lxor h1 (Std.size_t (Z.shiftl h2 1)).

(** [Symbol::clone] and its overrides. *)
Definition clone (s : Symbol) : Symbol :=
  match s with
  | BaseSymbol n t => BaseSymbol n t
  | ScalarSymbol n v => ScalarSymbol n v
  | ComplexSymbol n re im => ComplexSymbol n re im
  end.

(** [dynamic_cast<const ScalarSymbol*>(&s)] followed by [->value()]. *)
Definition scalar_value (s : Symbol) : option float :=
  match s with
  | ScalarSymbol _ v => Some v
  | _ => None
  end.

End Sym.

(** ** [expression.h], [expression.cpp] *)

Module Expr.

(** [enum class Expression::Type]. *)
Inductive ExpressionType :=
| SYMBOL | TENSOR | OPERATOR | OPERATOR_PRODUCT
| ADD | SUBTRACT | MULTIPLY | DIVIDE | POWER
| COMMUTATOR | ANTICOMMUTATOR | CONTRACT
| SUM | DERIVATIVE | INTEGRAL | FUNCTION_CALL.

Definition ExpressionType_to_int (t : ExpressionType) : Z :=
  match t with
  | SYMBOL => 0 | TENSOR => 1 | OPERATOR => 2 | OPERATOR_PRODUCT => 3
  | ADD => 4 | SUBTRACT => 5 | MULTIPLY => 6 | DIVIDE => 7 | POWER => 8
  | COMMUTATOR => 9 | ANTICOMMUTATOR => 10 | CONTRACT => 11
  | SUM => 12 | DERIVATIVE => 13 | INTEGRAL => 14 | FUNCTION_CALL => 15
  end.

Definition ExpressionType_eqb (a b : ExpressionType) : bool :=
  ExpressionType_to_int a =? ExpressionType_to_int b.

#[export] Instance ExpressionType_eq_dec : EqDecision ExpressionType.
Proof. solve_decision. Defined.

(** The four node classes [expression.cpp] implements, each with the
    children its constructor installs: none for a symbol leaf, two for a
    binary operation and a commutator, a vector for a sum ([add_child] is
    called by the constructors and by [add_term] only).  A
    [BinaryOpExpression] carries the tag its constructor was given, which
    may be any [Type]; the other classes fix theirs.  A sum keeps its
    coefficient vector beside its children, as the class does. *)
Inductive Expression :=
| SymbolExpression (symbol_ : Sym.Symbol)
| BinaryOpExpression (type_ : ExpressionType) (left right : Expression)
| CommutatorExpression (A B : Expression)
| SumExpression (children_ : list Expression) (coefficients_ : list float).

Definition type (e : Expression) : ExpressionType :=
  match e with
  | SymbolExpression _ => SYMBOL
  | BinaryOpExpression t _ _ => t
  | CommutatorExpression _ _ => COMMUTATOR
  | SumExpression _ _ => SUM
  end.

(** The [children_] vector of the node. *)
Definition children (e : Expression) : list Expression :=
  match e with
  | SymbolExpression _ => []
  | BinaryOpExpression _ l r => [l; r]
  | CommutatorExpression a b => [a; b]
  | SumExpression cs _ => cs
  end.

Definition num_children (e : Expression) : nat := length (children e).
Definition is_leaf (e : Expression) : bool := Nat.eqb (num_children e) 0.
Definition is_binary (e : Expression) : bool := Nat.eqb (num_children e) 2.
Definition is_unary (e : Expression) : bool := Nat.eqb (num_children e) 1.

(** [child(i)]; the source indexes the vector unchecked, so [None] stands
    for an access the callers below never make. *)
Definition child (i : nat) (e : Expression) : option Expression :=
  children e !! i.



(** [BinaryOpExpression::set_operator_symbol]. *)
Definition operator_symbol (t : ExpressionType) : string :=
  match t with
  | ADD => "+"
  | SUBTRACT => "-"
  | MULTIPLY => "*"
  | DIVIDE => "/"
  | POWER => "^"
  | _ => "?"
  end.

(** [SumExpression::coefficient]:
    [i < coefficients_.size() ? coefficients_[i] : 1.0]. *)
Definition coefficient (coefficients_ : list float) (i : nat) : float :=
  match coefficients_ !! i with
  | Some c => c
  | None => 1%float
  end.

(** [SumExpression::add_term]. *)
Definition add_term (term : Expression) (coeff : float) (e : Expression) : Expression :=
  match e with
  | SumExpression cs coeffs => SumExpression (cs ++ [term]) (coeffs ++ [coeff])
  | _ => e
  end.

(** [SumExpression::set_coefficient]. *)
Definition set_coefficient (i : nat) (coeff : float) (e : Expression) : Expression :=
  match e with
  | SumExpression cs coeffs =>
      if Nat.ltb i (length coeffs) then SumExpression cs (<[i := coeff]> coeffs) else e
  | _ => e
  end.

Definition needs_parens (e : Expression) : bool :=
  ExpressionType_eqb (type e) ADD || ExpressionType_eqb (type e) SUBTRACT.

Definition parenthesize (b : bool) (s : string) : string :=
  (if b then "(" else "") +:+ s +:+ (if b then ")" else "").

(** The [for] loop of [SumExpression::to_string] from term [i] on;
    [to_string] is the virtual call on a child. *)
Definition to_string_terms (to_string : Expression -> string) (coeffs : list float) :
    list Expression -> nat -> string :=
  fix loop (rest : list Expression) (i : nat) : string :=
    match rest with
    | [] => ""
    | c :: rest' =>
        (if Nat.ltb 0 i then " + " else "")
          +:+ (let coeff := coefficient coeffs i in
               if negb (PrimFloat.eqb coeff 1)
               then Std.put_double coeff +:+ "*" else "")
          +:+ to_string c
          +:+ loop rest' (S i)
    end.

(** The virtual [to_string], one arm per override. *)
Fixpoint to_string (e : Expression) : string :=
  match e with
  | SymbolExpression s => Sym.to_string s
  | BinaryOpExpression t l r =>
      let need_parens_left := needs_parens l in
      let need_parens_right := needs_parens r in
      parenthesize need_parens_left (to_string l)
        +:+ " " +:+ operator_symbol t +:+ " "
        +:+ parenthesize need_parens_right (to_string r)
  | CommutatorExpression a b =>
      "[" +:+ to_string a +:+ ", " +:+ to_string b +:+ "]"
  | SumExpression cs coeffs =>
      match cs with
      | [] => "0"
      | _ => to_string_terms to_string coeffs cs O
      end
  end.

(** The [for] loop of [SumExpression::clone] from term [i] on: every term
    is re-added with [coefficient(i)], so the copy's coefficient vector is
    as long as its child vector. *)
Definition clone_terms (clone : Expression -> Expression) (coeffs : list float) :
    list Expression -> nat -> Expression -> Expression :=
  fix loop (rest : list Expression) (i : nat) (result : Expression) : Expression :=
    match rest with
    | [] => result
    | c :: rest' => loop rest' (S i) (add_term (clone c) (coefficient coeffs i) result)
    end.

(** The virtual [clone]. *)
Fixpoint clone (e : Expression) : Expression :=
  match e with
  | SymbolExpression s => SymbolExpression (Sym.clone s)
  | BinaryOpExpression t l r => BinaryOpExpression t (clone l) (clone r)
  | CommutatorExpression a b => CommutatorExpression (clone a) (clone b)
  | SumExpression cs coeffs => clone_terms clone coeffs cs O (SumExpression [] [])
  end.

(** The [for] loop of [SumExpression::equals] from term [i] on, against
    the other sum's children [cs'] and coefficients [coeffs']. *)
Definition equals_terms (equals : Expression -> Expression -> bool)
    (coeffs : list float) (cs' : list Expression) (coeffs' : list float) :
    list Expression -> nat -> bool :=
  fix loop (rest : list Expression) (i : nat) : bool :=
    match rest with
    | [] => true
    | c :: rest' =>
        match cs' !! i with
        | Some c' =>
            if negb (equals c c')
               || negb (PrimFloat.eqb (coefficient coeffs i) (coefficient coeffs' i))
            then false
            else loop rest' (S i)
        | None => false
        end
    end.

(** The virtual [equals], dispatched on the receiver [a]: each override
    first compares [other.type()] with its own tag, then downcasts
    [other] to its own class and fails when the cast does. *)
Fixpoint equals (a other : Expression) {struct a} : bool :=
  match a with
  | SymbolExpression s =>
      if negb (ExpressionType_eqb (type other) SYMBOL) then false else
      match other with
      | SymbolExpression s' => Sym.eqb s s'
      | _ => false
      end
  | BinaryOpExpression t l r =>
      if negb (ExpressionType_eqb (type other) t) then false else
      match other with
      | BinaryOpExpression _ l' r' => equals l l' && equals r r'
      | _ => false
      end
  | CommutatorExpression a1 b1 =>
      if negb (ExpressionType_eqb (type other) COMMUTATOR) then false else
      match other with
      | CommutatorExpression a2 b2 => equals a1 a2 && equals b1 b2
      | _ => false
      end
  | SumExpression cs coeffs =>
      if negb (ExpressionType_eqb (type other) SUM) then false else
      match other with
      | SumExpression cs' coeffs' =>
          if negb (Nat.eqb (length cs') (length cs)) then false else
          equals_terms equals coeffs cs' coeffs' cs O
      | _ => false
      end
  end.

(** [seed ^= h + 0x9e3779b9 + (seed << 6) + (seed >> 2)] on [size_t]. *)
Definition hash_combine (seed h : Z) : Z :=
  Z.lxor seed
    (Std.size_t (h + 2654435769 + Std.size_t (Z.shiftl seed 6) + Z.shiftr seed 2)).

Definition hash_of_type `{StdHash} (t : ExpressionType) : Z :=
  Std.size_t (hash_int (ExpressionType_to_int t)).

(** The [for] loop of [SumExpression::hash] from term [i] on. *)
Definition hash_terms `{StdHash} (hash : Expression -> Z) (coeffs : list float) :
    list Expression -> nat -> Z -> Z :=
  fix loop (rest : list Expression) (i : nat) (seed : Z) : Z :=
    match rest with
    | [] => seed
    | c :: rest' =>
        let seed := hash_combine seed (hash c) in
        let seed := hash_combine seed (Std.size_t (hash_double (coefficient coeffs i))) in
        loop rest' (S i) seed
    end.

(** The virtual [hash], one arm per override. *)
Fixpoint hash `{StdHash} (e : Expression) : Z :=
  match e with
  | SymbolExpression s => Sym.hash s
  | BinaryOpExpression t l r =>
      let seed := hash_of_type t in
      let seed := hash_combine seed (hash l) in
      let seed := hash_combine seed (hash r) in
      seed
  | CommutatorExpression a b =>
      let seed := hash_of_type COMMUTATOR in
      let seed := hash_combine seed (hash a) in
      let seed := hash_combine seed (hash b) in
      seed
  | SumExpression cs coeffs => hash_terms hash coeffs cs O (hash_of_type SUM)
  end.

(** The base class's own [Expression::hash] and [Expression::equals],
    which a node class without overrides would inherit; the calls to
    [hash()] inside them are virtual. *)
Definition Expression_hash `{StdHash} (e : Expression) : Z :=
  fold_left (fun seed c => hash_combine seed (hash c)) (children e) (hash_of_type (type e)).

Definition Expression_equals `{StdHash} (a other : Expression) : bool :=
  ExpressionType_eqb (type a) (type other) && (hash a =? hash other).

End Expr.

(** [namespace ExpressionFactory]. *)
Module ExpressionFactory.
Import Expr.

(** [SymbolExpression(const Symbol&)] stores [symbol.clone()]. *)
Definition symbol (sym : Sym.Symbol) : Expression := SymbolExpression (Sym.clone sym).

Definition add (l r : Expression) : Expression := BinaryOpExpression ADD l r.
Definition subtract (l r : Expression) : Expression := BinaryOpExpression SUBTRACT l r.
Definition multiply (l r : Expression) : Expression := BinaryOpExpression MULTIPLY l r.
Definition divide (l r : Expression) : Expression := BinaryOpExpression DIVIDE l r.
Definition power (base exponent : Expression) : Expression :=
  BinaryOpExpression POWER base exponent.

Definition sum (terms : list Expression) : Expression :=
  fold_left (fun result term => add_term (clone term) 1%float result) terms
    (SumExpression [] []).

Definition zero : Expression := symbol (Sym.ScalarSymbol "0" 0%float).
Definition one : Expression := symbol (Sym.ScalarSymbol "1" 1%float).
Definition constant (value : float) : Expression :=
  symbol (Sym.ScalarSymbol (Std.to_string_double value) value).

End ExpressionFactory.

(** ** [simplifier.h], [simplifier.cpp] *)

(** [Simplifier::Rule]: a null result means the rule does not apply. *)
Definition Rule : Type := Expr.Expression -> option Expr.Expression.

(** The test the algebraic rules repeat inline on an operand: a node tagged
    [SYMBOL] that downcasts to [SymbolExpression], over a symbol of kind
    [SCALAR] that downcasts to [ScalarSymbol]; then its value. *)
Definition get_scalar_value (e : Expr.Expression) : option float :=
  if Expr.ExpressionType_eqb (Expr.type e) Expr.SYMBOL then
    match e with
    | Expr.SymbolExpression s => if Sym.is_scalar s then Sym.scalar_value s else None
    | _ => None
    end
  else None.

(** [scalar && scalar->value() == c] after that test. *)
Definition is_scalar_leaf_of_value (c : float) (e : Expr.Expression) : bool :=
  match get_scalar_value e with
  | Some v => PrimFloat.eqb v c
  | None => false
  end.

Module DistributiveRules.
Import Expr ExpressionFactory.

Definition is_add_or_sum (e : Expression) : bool :=
  ExpressionType_eqb (type e) ADD || ExpressionType_eqb (type e) SUM.

Definition distribute_multiplication (expr : Expression) : option Expression :=
  if negb (ExpressionType_eqb (type expr) MULTIPLY) || negb (is_binary expr) then None else
  left ← child 0 expr;
  right ← child 1 expr;
  if is_add_or_sum left then
    if is_add_or_sum right then
      if ExpressionType_eqb (type left) ADD && ExpressionType_eqb (type right) ADD then
        a ← child 0 left; b ← child 1 left;
        c ← child 0 right; d ← child 1 right;
        let ac := multiply (clone a) (clone c) in
        let ad := multiply (clone a) (clone d) in
        let bc := multiply (clone b) (clone c) in
        let bd := multiply (clone b) (clone d) in
        let result := SumExpression [] [] in
        let result := add_term ac 1%float result in
        let result := add_term ad 1%float result in
        let result := add_term bc 1%float result in
        let result := add_term bd 1%float result in
        Some result
      else None
    else
      if ExpressionType_eqb (type left) ADD then
        a ← child 0 left; b ← child 1 left;
        let ac := multiply (clone a) (clone right) in
        let bc := multiply (clone b) (clone right) in
        Some (add ac bc)
      else None
  else if is_add_or_sum right then
    if ExpressionType_eqb (type right) ADD then
      b ← child 0 right; c ← child 1 right;
      let ab := multiply (clone left) (clone b) in
      let ac := multiply (clone left) (clone c) in
      Some (add ab ac)
    else None
  else None.

Definition factor_common_terms (expr : Expression) : option Expression :=
  if negb (ExpressionType_eqb (type expr) ADD) || negb (is_binary expr) then None else
  left ← child 0 expr;
  right ← child 1 expr;
  if ExpressionType_eqb (type left) MULTIPLY && ExpressionType_eqb (type right) MULTIPLY then
    if is_binary left && is_binary right then
      l0 ← child 0 left; l1 ← child 1 left;
      r0 ← child 0 right; r1 ← child 1 right;
      if equals l1 r1 then
        Some (multiply (add (clone l0) (clone r0)) (clone l1))
      else if equals l0 r0 then
        Some (multiply (clone l0) (add (clone l1) (clone r1)))
      else None
    else None
  else None.

Definition distribute_over_subtraction (expr : Expression) : option Expression :=
  if negb (ExpressionType_eqb (type expr) MULTIPLY) || negb (is_binary expr) then None else
  left ← child 0 expr;
  right ← child 1 expr;
  if ExpressionType_eqb (type right) SUBTRACT && is_binary right then
    b ← child 0 right; c ← child 1 right;
    Some (subtract (multiply (clone left) (clone b)) (multiply (clone left) (clone c)))
  else if ExpressionType_eqb (type left) SUBTRACT && is_binary left then
    a ← child 0 left; b ← child 1 left;
    Some (subtract (multiply (clone a) (clone right)) (multiply (clone b) (clone right)))
  else None.

End DistributiveRules.

Module AlgebraicRules.
Import Expr ExpressionFactory.

Definition identity_addition (expr : Expression) : option Expression :=
  if negb (ExpressionType_eqb (type expr) ADD) || negb (is_binary expr) then None else
  left ← child 0 expr;
  right ← child 1 expr;
  if is_scalar_leaf_of_value 0%float left then Some (clone right)
  else if is_scalar_leaf_of_value 0%float right then Some (clone left)
  else None.

Definition identity_multiplication (expr : Expression) : option Expression :=
  if negb (ExpressionType_eqb (type expr) MULTIPLY) || negb (is_binary expr) then None else
  left ← child 0 expr;
  right ← child 1 expr;
  if is_scalar_leaf_of_value 1%float left then Some (clone right)
  else if is_scalar_leaf_of_value 1%float right then Some (clone left)
  else None.

(** The lambda of [zero_multiplication]. *)
Definition check_zero (e : Expression) : bool := is_scalar_leaf_of_value 0%float e.

Definition zero_multiplication (expr : Expression) : option Expression :=
  if negb (ExpressionType_eqb (type expr) MULTIPLY) || negb (is_binary expr) then None else
  left ← child 0 expr;
  right ← child 1 expr;
  if check_zero left || check_zero right then Some zero else None.

Definition combine_constants (expr : Expression) : option Expression :=
  if ExpressionType_eqb (type expr) ADD && is_binary expr then
    left ← child 0 expr;
    right ← child 1 expr;
    match get_scalar_value left, get_scalar_value right with
    | Some lv, Some rv => Some (constant (PrimFloat.add lv rv))
    | _, _ => None
    end
  else if ExpressionType_eqb (type expr) MULTIPLY && is_binary expr then
    left ← child 0 expr;
    right ← child 1 expr;
    match get_scalar_value left, get_scalar_value right with
    | Some lv, Some rv => Some (constant (PrimFloat.mul lv rv))
    | _, _ => None
    end
  else None.

End AlgebraicRules.

Module CommutatorRules.
Import Expr ExpressionFactory.

Definition antisymmetry (expr : Expression) : option Expression :=
  if negb (ExpressionType_eqb (type expr) COMMUTATOR) || negb (is_binary expr) then None
  else None.

Definition zero_commutator (expr : Expression) : option Expression :=
  if negb (ExpressionType_eqb (type expr) COMMUTATOR) || negb (is_binary expr) then None else
  a ← child 0 expr;
  b ← child 1 expr;
  if equals a b then Some zero else None.

Definition expand_commutator (expr : Expression) : option Expression :=
  if negb (ExpressionType_eqb (type expr) COMMUTATOR) || negb (is_binary expr) then None else
  a ← child 0 expr;
  b ← child 1 expr;
  Some (subtract (multiply (clone a) (clone b)) (multiply (clone b) (clone a))).

End CommutatorRules.

Module Simplifier.
Import Expr.

(** [enum class Simplifier::RuleType]. *)
Inductive RuleType :=
| ALGEBRAIC | DISTRIBUTIVE | ASSOCIATIVE | COMMUTATIVE | TENSOR
| OPERATOR | COMMUTATOR | INDEX | SYMMETRY.

Definition RuleType_to_int (t : RuleType) : Z :=
  match t with
  | ALGEBRAIC => 0 | DISTRIBUTIVE => 1 | ASSOCIATIVE => 2 | COMMUTATIVE => 3
  | TENSOR => 4 | OPERATOR => 5 | COMMUTATOR => 6 | INDEX => 7 | SYMMETRY => 8
  end.

Definition RuleType_of_int (z : Z) : option RuleType :=
  match z with
  | 0 => Some ALGEBRAIC | 1 => Some DISTRIBUTIVE | 2 => Some ASSOCIATIVE
  | 3 => Some COMMUTATIVE | 4 => Some TENSOR | 5 => Some OPERATOR
  | 6 => Some COMMUTATOR | 7 => Some INDEX | 8 => Some SYMMETRY
  | _ => None
  end.

#[export] Instance RuleType_eq_dec : EqDecision RuleType.
Proof. solve_decision. Defined.

#[export] Instance RuleType_countable : Countable RuleType.
Proof.
  apply (inj_countable RuleType_to_int RuleType_of_int).
  intros []; reflexivity.
Defined.

(** The simplifier object: [rules_], [enable_trace_], [trace_log_]. *)
Record Simplifier := {
  rules_ : gmap RuleType (list Rule);
  enable_trace_ : bool;
  trace_log_ : list string;
}.

(** [rules_[t].push_back(rule)]: [operator[]] inserts an empty vector for
    a key that is not there yet. *)
Definition push_back_rule (t : RuleType) (rule : Rule)
    (rules : gmap RuleType (list Rule)) : gmap RuleType (list Rule) :=
  <[t := (default [] (rules !! t) ++ [rule])%list]> rules.

Definition initialize_default_rules (rules : gmap RuleType (list Rule)) :
    gmap RuleType (list Rule) :=
  let rules := push_back_rule DISTRIBUTIVE DistributiveRules.distribute_multiplication rules in
  let rules := push_back_rule DISTRIBUTIVE DistributiveRules.factor_common_terms rules in
  let rules := push_back_rule DISTRIBUTIVE DistributiveRules.distribute_over_subtraction rules in
  let rules := push_back_rule ALGEBRAIC AlgebraicRules.identity_addition rules in
  let rules := push_back_rule ALGEBRAIC AlgebraicRules.identity_multiplication rules in
  let rules := push_back_rule ALGEBRAIC AlgebraicRules.zero_multiplication rules in
  let rules := push_back_rule ALGEBRAIC AlgebraicRules.combine_constants rules in
  let rules := push_back_rule COMMUTATOR CommutatorRules.antisymmetry rules in
  let rules := push_back_rule COMMUTATOR CommutatorRules.zero_commutator rules in
  let rules := push_back_rule COMMUTATOR CommutatorRules.expand_commutator rules in
  rules.

(** The constructor [Simplifier(bool enable_trace)]. *)
Definition new (enable_trace : bool) : Simplifier :=
  {| rules_ := initialize_default_rules ∅;
     enable_trace_ := enable_trace;
     trace_log_ := [] |}.

(** [Simplifier::apply_rules]: the first non-null result returns. *)
Fixpoint apply_rules (expr : Expression) (rules : list Rule) : option Expression :=
  match rules with
  | [] => None
  | rule :: rest =>
      match rule expr with
      | Some result => Some result
      | None => apply_rules expr rest
      end
  end.

(** [Simplifier::log_trace], on the [trace_log_] member. *)
Definition log_trace (enable_trace : bool) (message : string)
    (trace_log : list string) : list string :=
  if enable_trace then
    let trace_log := (trace_log ++ [message])%list in
    if Nat.ltb 1000 (length trace_log) then drop 100 trace_log else trace_log
  else trace_log.

Definition rule_order : list RuleType :=
  [ALGEBRAIC; DISTRIBUTIVE; COMMUTATOR; TENSOR; OPERATOR; SYMMETRY].

Definition max_iterations : Z := 10.

(** The variables the [while] loop of [simplify] reads and writes. *)
Record LoopState := {
  result : Expression;
  changed : bool;
  iterations : Z;
  trace_log : list string;
}.

(** The body of [if (it != rules_.end())]: the category's rules are
    applied to the current tree, and a replacement that renders otherwise
    takes its place. *)
Definition apply_category (enable_trace : bool) (old_result : string)
    (rule_type : RuleType) (rules : list Rule) (st : LoopState) : LoopState :=
  match apply_rules (result st) rules with
  | Some new_expr =>
      if negb (String.eqb (to_string new_expr) (to_string (result st))) then
        {| result := new_expr;
           changed := true;
           iterations := iterations st;
           trace_log :=
             log_trace enable_trace
               ("Applied " +:+ Std.to_string_int (RuleType_to_int rule_type)
                  +:+ " rule: " +:+ old_result +:+ " -> " +:+ to_string new_expr)
               (trace_log st) |}
      else st
  | None => st
  end.

(** The body of [for (auto rule_type : rule_order)]. *)
Definition for_body (self : Simplifier) (old_result : string)
    (st : LoopState) (rule_type : RuleType) : LoopState :=
  match rules_ self !! rule_type with
  | Some rules => apply_category (enable_trace_ self) old_result rule_type rules st
  | None => st
  end.

(** The body of the [while] loop: one pass over the categories. *)
Definition while_body (self : Simplifier) (st : LoopState) : LoopState :=
  let old_result := to_string (result st) in
  let st := {| result := result st; changed := false;
               iterations := iterations st; trace_log := trace_log st |} in
  let st := fold_left (for_body self old_result) rule_order st in
  {| result := result st; changed := changed st;
     iterations := iterations st + 1; trace_log := trace_log st |}.

(** [changed && iterations < max_iterations]. *)
Definition while_cond (st : LoopState) : bool :=
  changed st && (iterations st <? max_iterations).

(** The loop as the language runs it: no bound but its own condition. *)
Inductive while_runs (self : Simplifier) : LoopState -> LoopState -> Prop :=
| while_exit st :
    while_cond st = false -> while_runs self st st
| while_iterate st st' :
    while_cond st = true -> while_runs self (while_body self st) st' ->
    while_runs self st st'.

(** The same loop, executable: at most [fuel] iterations. *)
Fixpoint while_loop (self : Simplifier) (fuel : nat) (st : LoopState) : LoopState :=
  match fuel with
  | O => st
  | S fuel' =>
      if while_cond st then while_loop self fuel' (while_body self st) else st
  end.

Definition initial_state (self : Simplifier) (expr : Expression) : LoopState :=
  {| result := clone expr; changed := true; iterations := 0;
     trace_log := trace_log_ self |}.

(** [Simplifier::simplify] with everything it leaves behind: the tree it
    returns, the number of passes made and the trace log. *)
Definition simplify_state (self : Simplifier) (expr : Expression) : LoopState :=
  while_loop self (Z.to_nat max_iterations) (initial_state self expr).

Definition simplify (self : Simplifier) (expr : Expression) : Expression :=
  result (simplify_state self expr).

(** [Simplifier::apply_distributive_rules]. *)
Definition apply_distributive_rules (self : Simplifier) (expr : Expression) :
    option Expression :=
  match rules_ self !! DISTRIBUTIVE with
  | Some rules => apply_rules expr rules
  | None => Some (clone expr)
  end.

End Simplifier.

(** A concrete [std::hash] family, in the manner of the common
    implementations: integers hash to themselves, strings by FNV-1a, and a
    double by its sign, mantissa and exponent with both zeros sent to 0. *)
Module ReferenceHash.

Definition fnv1a (s : string) : Z :=
  fold_left
    (fun h c => Std.size_t (Z.lxor h (Z.of_nat (nat_of_ascii c)) * 1099511628211))
    (list_ascii_of_string s) 14695981039346656037.

Definition of_spec_float (x : spec_float) : Z :=
  match x with
  | S754_zero _ => 0
  | S754_infinity s => if s then 1 else 2
  | S754_nan => 3
  | S754_finite s m e => Std.size_t (Z.pos m * 4096 + e + (if s then 2048 else 0))
  end.

#[export] Instance reference_hash : StdHash := {|
  hash_string := fnv1a;
  hash_int := Std.size_t;
  hash_double := fun x => of_spec_float (Prim2SF x);
|}.

End ReferenceHash.

(** ** The trees of the demo driver ([examples/main.cpp]) *)

Module Examples.
Import Expr ExpressionFactory.

(** [Symbol x("x")]: the constructor's default kind is [VARIABLE]. *)
Definition variable (name : string) : Expression :=
  symbol (Sym.BaseSymbol name Sym.VARIABLE).

Definition a : Expression := variable "a".
Definition b : Expression := variable "b".
Definition c : Expression := variable "c".
Definition d : Expression := variable "d".
Definition x : Expression := variable "x".
Definition y : Expression := variable "y".

(** [ScalarSymbol zero("0", 0.0)] and [ScalarSymbol one("1", 1.0)]. *)
Definition scalar_zero : Expression := symbol (Sym.ScalarSymbol "0" 0%float).
Definition scalar_one : Expression := symbol (Sym.ScalarSymbol "1" 1%float).

(** [demonstrate_full_simplification]: [(x + 0) * (y + 1*0) + 0] over
    variables of any two names. *)
Definition noisy_factors (xn yn : string) : Expression :=
  multiply (add (variable xn) scalar_zero)
           (add (variable yn) (multiply scalar_one scalar_zero)).
Definition noisy_product (xn yn : string) : Expression :=
  add (noisy_factors xn yn) scalar_zero.

(** The four products [distribute_multiplication] builds from it. *)
Definition noisy_expansion (xn yn : string) : Expression :=
  SumExpression
    [ multiply (variable xn) (variable yn);
      multiply (variable xn) (multiply scalar_one scalar_zero);
      multiply scalar_zero (variable yn);
      multiply scalar_zero (multiply scalar_one scalar_zero) ]
    [1%float; 1%float; 1%float; 1%float].


(** Two one-term sums that differ in the sign of a zero coefficient. *)
Definition plus_zero_times_x : Expression := add_term x 0%float (SumExpression [] []).
Definition minus_zero_times_x : Expression := add_term x (-0)%float (SumExpression [] []).


End Examples.

(** ** Vocabulary of the statements *)

Import Expr ExpressionFactory.

(** An operand of a binary operation, rendered in parentheses exactly when
    its own tag is [ADD] or [SUBTRACT]. *)
Definition rendered_operand (operand : Expression) : string :=
  if decide (type operand = ADD \/ type operand = SUBTRACT)
  then "(" +:+ to_string operand +:+ ")"
  else to_string operand.

(** The three rule lists [initialize_default_rules] registers, each in
    its order of registration. *)
Definition default_algebraic_rules : list Rule :=
  [AlgebraicRules.identity_addition; AlgebraicRules.identity_multiplication;
   AlgebraicRules.zero_multiplication; AlgebraicRules.combine_constants].
Definition default_distributive_rules : list Rule :=
  [DistributiveRules.distribute_multiplication; DistributiveRules.factor_common_terms;
   DistributiveRules.distribute_over_subtraction].
Definition default_commutator_rules : list Rule :=
  [CommutatorRules.antisymmetry; CommutatorRules.zero_commutator;
   CommutatorRules.expand_commutator].

(** A tree each of whose sums has one coefficient per term, as
    [add_term] and the constructors of [SumExpression] leave it. *)
Fixpoint coefficients_aligned (e : Expression) : bool :=
  match e with
  | SymbolExpression _ => true
  | BinaryOpExpression _ l r => coefficients_aligned l && coefficients_aligned r
  | CommutatorExpression a b => coefficients_aligned a && coefficients_aligned b
  | SumExpression cs coeffs =>
      forallb coefficients_aligned cs && Nat.eqb (length coeffs) (length cs)
  end.


(** The first rule of a list, in list order, that returns a replacement
    for [e], and that replacement. *)
Definition first_match (rules : list Rule) (e : Expression) : option Expression :=
  match list_find (fun rule : Rule => is_Some (rule e)) rules with
  | Some (_, rule) => rule e
  | None => None
  end.

(** The tree a rule category leaves behind on one pass: the replacement of
    its first matching rule when that renders otherwise than the tree it is
    given, else the tree it is given. *)
Definition category_outcome (self : Simplifier.Simplifier)
    (rule_type : Simplifier.RuleType) (tree : Expression) : Expression :=
  match Simplifier.rules_ self !! rule_type with
  | Some rules =>
      match first_match rules tree with
      | Some new_tree =>
          if decide (to_string new_tree = to_string tree) then tree else new_tree
      | None => tree
      end
  | None => tree
  end.

(** ** Renderings, character by character *)

Definition chars (s : string) : list ascii := list_ascii_of_string s.

(** An operand as [BinaryOpExpression::to_string] writes it. *)
Definition operand_chars (e : Expression) : list ascii := chars (rendered_operand e).

(** The one character of [operator_symbol_]. *)
Definition operator_char (t : ExpressionType) : ascii :=
  match t with
  | ADD => "+" | SUBTRACT => "-" | MULTIPLY => "*" | DIVIDE => "/" | POWER => "^"
  | _ => "?"
  end%char.

Section RenderingShapes.
Local Open Scope list_scope.
Local Open Scope char_scope.

(** [" " << operator_symbol_ << " "] and what follows it. *)
Definition separated (o : ascii) (rest : list ascii) : list ascii :=
  " " :: o :: " " :: rest.

(** An Add or Subtract operand: [( P p Q )]. *)
Definition in_parens (p : ascii) (P Q : list ascii) : list ascii :=
  "(" :: (P ++ separated p Q) ++ [")"].

(** [(a + b) * (c + d)] and its four products. *)
Definition both_sums (A B C D : list ascii) : list ascii :=
  in_parens "+" A B ++ separated "*" (in_parens "+" C D).
Definition both_sums_expanded (A B C D : list ascii) : list ascii :=
  (A ++ separated "*" C) ++ separated "+" ((A ++ separated "*" D) ++ separated "+"
    ((B ++ separated "*" C) ++ separated "+" (B ++ separated "*" D))).

(** [(a p b) * c] and [a * c p b * c]. *)
Definition left_sum (p : ascii) (A B C : list ascii) : list ascii :=
  in_parens p A B ++ separated "*" C.
Definition left_sum_expanded (p : ascii) (A B C : list ascii) : list ascii :=
  (A ++ separated "*" C) ++ separated p (B ++ separated "*" C).

(** [a * (b p c)] and [a * b p a * c]. *)
Definition right_sum (p : ascii) (A B C : list ascii) : list ascii :=
  A ++ separated "*" (in_parens p B C).
Definition right_sum_expanded (p : ascii) (A B C : list ascii) : list ascii :=
  (A ++ separated "*" B) ++ separated p (A ++ separated "*" C).

(** [a * b + c * d] as an operand. *)
Definition two_products (A B C D : list ascii) : list ascii :=
  in_parens "+" (A ++ separated "*" B) (C ++ separated "*" D).

(** [[a, b]] as [CommutatorExpression::to_string] writes it, a binary node
    tagged [COMMUTATOR] as [BinaryOpExpression::to_string] does, and
    [a * b - b * a]. *)
Definition bracket (Ra Rb : list ascii) : list ascii :=
  "[" :: Ra ++ "," :: " " :: Rb ++ ["]"].
Definition question (A B : list ascii) : list ascii := A ++ separated "?" B.
Definition commutator_expanded (A B : list ascii) : list ascii :=
  (A ++ separated "*" B) ++ separated "-" (B ++ separated "*" A).

(** An operand is its bare rendering, or that in parentheses. *)
Definition bare_or_in_parens (bare rendered : list ascii) : Prop :=
  rendered = bare \/ rendered = "(" :: bare ++ [")"].

End RenderingShapes.

(** The rewrites the three distributive rules make at the root. *)
Inductive distributive_rewrite : Expression -> Expression -> Prop :=
| rewrite_both_sums a b c d :
    distributive_rewrite (multiply (add a b) (add c d))
      (SumExpression
         [multiply (clone a) (clone c); multiply (clone a) (clone d);
          multiply (clone b) (clone c); multiply (clone b) (clone d)]
         [1%float; 1%float; 1%float; 1%float])
| rewrite_left_sum a b c :
    distributive_rewrite (multiply (add a b) c)
      (add (multiply (clone a) (clone c)) (multiply (clone b) (clone c)))
| rewrite_right_sum a b c :
    distributive_rewrite (multiply a (add b c))
      (add (multiply (clone a) (clone b)) (multiply (clone a) (clone c)))
| rewrite_factor_right l0 l1 r0 r1 :
    distributive_rewrite (add (multiply l0 l1) (multiply r0 r1))
      (multiply (add (clone l0) (clone r0)) (clone l1))
| rewrite_factor_left l0 l1 r0 r1 :
    distributive_rewrite (add (multiply l0 l1) (multiply r0 r1))
      (multiply (clone l0) (add (clone l1) (clone r1)))
| rewrite_right_difference a b c :
    distributive_rewrite (multiply a (subtract b c))
      (subtract (multiply (clone a) (clone b)) (multiply (clone a) (clone c)))
| rewrite_left_difference a b c :
    distributive_rewrite (multiply (subtract a b) c)
      (subtract (multiply (clone a) (clone c)) (multiply (clone b) (clone c))).

(** The rewrites the commutator rules make at the root, of a
    [CommutatorExpression] or of a binary node tagged [COMMUTATOR]. *)
Inductive commutator_rewrite : Expression -> Expression -> Prop :=
| rewrite_zero_node a b : commutator_rewrite (CommutatorExpression a b) zero
| rewrite_zero_binary a b : commutator_rewrite (BinaryOpExpression Expr.COMMUTATOR a b) zero
| rewrite_expand_node a b :
    commutator_rewrite (CommutatorExpression a b)
      (subtract (multiply (clone a) (clone b)) (multiply (clone b) (clone a)))
| rewrite_expand_binary a b :
    commutator_rewrite (BinaryOpExpression Expr.COMMUTATOR a b)
      (subtract (multiply (clone a) (clone b)) (multiply (clone b) (clone a))).

(** [t1] renders as one of the two operands of the Add or Multiply [t0]. *)
Definition keeps_an_operand (t0 t1 : Expression) : Prop :=
  exists (z : list ascii) (o : ascii),
    (o = "+"%char \/ o = "*"%char)
    /\ (chars (to_string t0) = (z ++ separated o (operand_chars t1))%list
        \/ chars (to_string t0) = (operand_chars t1 ++ separated o z)%list).

(** * Properties *)

(** ** Strings *)

Lemma append_cons (ch : ascii) (s1 s2 : string) :
  String ch s1 +:+ s2 = String ch (s1 +:+ s2).
Proof. reflexivity. Qed.

Lemma append_empty_r (s : string) : s +:+ "" = s.
Proof.
  induction s as [| ch s IH]; [reflexivity |]. rewrite append_cons, IH. reflexivity.
Qed.

Lemma append_length (s1 s2 : string) :
  String.length (s1 +:+ s2) = (String.length s1 + String.length s2)%nat.
Proof.
  induction s1 as [| ch s1 IH]; [reflexivity |]. rewrite append_cons. simpl.
  rewrite IH. reflexivity.
Qed.

(** ** Tags and symbols *)

Lemma ExpressionType_eqb_eq (a b : ExpressionType) :
  ExpressionType_eqb a b = true <-> a = b.
Proof.
  unfold ExpressionType_eqb. rewrite Z.eqb_eq. split; [| congruence].
  destruct a, b; simpl; intros Heq; first [reflexivity | discriminate Heq].
Qed.


Lemma SymbolType_eqb_eq (a b : Sym.SymbolType) :
  Sym.SymbolType_eqb a b = true <-> a = b.
Proof.
  unfold Sym.SymbolType_eqb. rewrite Z.eqb_eq. split; [| congruence].
  destruct a, b; simpl; intros Heq; first [reflexivity | discriminate Heq].
Qed.

Lemma Sym_clone_id (s : Sym.Symbol) : Sym.clone s = s.
Proof. destruct s; reflexivity. Qed.

Lemma Sym_eqb_true (a b : Sym.Symbol) :
  Sym.eqb a b = true <-> Sym.name a = Sym.name b /\ Sym.type a = Sym.type b.
Proof.
  unfold Sym.eqb. rewrite andb_true_iff, String.eqb_eq, SymbolType_eqb_eq. reflexivity.
Qed.


(** ** Induction over trees whose sums nest lists of children *)

Lemma Expression_tree_ind (P : Expression -> Prop) :
  (forall s, P (SymbolExpression s)) ->
  (forall t l r, P l -> P r -> P (BinaryOpExpression t l r)) ->
  (forall a b, P a -> P b -> P (CommutatorExpression a b)) ->
  (forall cs coeffs, Forall P cs -> P (SumExpression cs coeffs)) ->
  forall e, P e.
Proof.
  intros Hsym Hbin Hcomm Hsum.
  fix IH 1. intros [s | t l r | a b | cs coeffs].
  - apply Hsym.
  - apply Hbin; apply IH.
  - apply Hcomm; apply IH.
  - apply Hsum. induction cs as [| c cs IHcs]; constructor; [apply IH | exact IHcs].
Qed.

(** ** [set_child] *)




(** ** Symbol leaves: the value of a scalar is not part of its identity *)

(** C10. Two symbol leaves over [ScalarSymbol(n, u)] and
    [ScalarSymbol(n, v)] are [equals] and have the same hash, whatever the
    values [u] and [v]: [Symbol::operator==] and [Symbol::hash] read the
    name and the kind only. *)
Theorem scalar_value_not_in_identity `{StdHash} (n : string) (u v : float) :
  Sym.eqb (Sym.ScalarSymbol n u) (Sym.ScalarSymbol n v) = true
  /\ equals (symbol (Sym.ScalarSymbol n u)) (symbol (Sym.ScalarSymbol n v)) = true
  /\ hash (symbol (Sym.ScalarSymbol n u)) = hash (symbol (Sym.ScalarSymbol n v)).
Proof.
  assert (Heq : Sym.eqb (Sym.ScalarSymbol n u) (Sym.ScalarSymbol n v) = true).
  { apply Sym_eqb_true. split; reflexivity. }
  split; [exact Heq |]. split.
  - simpl. exact Heq.
  - reflexivity.
Qed.

(** The values may well differ. *)
Example scalar_value_not_in_identity_distinct :
  PrimFloat.eqb 0 1 = false
  /\ equals Examples.scalar_zero (symbol (Sym.ScalarSymbol "0" 1%float)) = true.
Proof. split; reflexivity. Qed.

(** ** Rendering of binary operations *)

Lemma needs_parens_iff (e : Expression) :
  needs_parens e = true <-> type e = ADD \/ type e = SUBTRACT.
Proof.
  unfold needs_parens. rewrite orb_true_iff, !ExpressionType_eqb_eq. reflexivity.
Qed.

Lemma parenthesize_rendered (e : Expression) :
  parenthesize (needs_parens e) (to_string e) = rendered_operand e.
Proof.
  unfold rendered_operand.
  destruct (decide (type e = ADD \/ type e = SUBTRACT)) as [Hyes | Hno].
  - apply needs_parens_iff in Hyes. rewrite Hyes. reflexivity.
  - destruct (needs_parens e) eqn:Hp.
    + apply needs_parens_iff in Hp. contradiction.
    + unfold parenthesize. simpl. apply append_empty_r.
Qed.

(** C7, as the code has it: [BinaryOpExpression::to_string] wraps an
    operand in parentheses exactly when the operand's tag is [ADD] or
    [SUBTRACT]; the operator of the node itself plays no part, so the rule
    is the same under [+] as under [*]. *)
Theorem to_string_binary_parentheses (t : ExpressionType) (l r : Expression) :
  to_string (BinaryOpExpression t l r)
  = rendered_operand l +:+ " " +:+ operator_symbol t +:+ " " +:+ rendered_operand r.
Proof.
  simpl. rewrite !parenthesize_rendered. reflexivity.
Qed.

(** C7 as stated fails on [(a + b) + c]: the sum on the left of [+] is
    rendered in parentheses. *)
Lemma to_string_add_of_add_has_parentheses :
  to_string (add (add Examples.a Examples.b) Examples.c) = "(a + b) + c"
  /\ to_string (add (add Examples.a Examples.b) Examples.c) <> "a + b + c"
  /\ to_string (add Examples.a (subtract Examples.b Examples.c)) = "a + (b - c)".
Proof.
  assert (Hleft : to_string (add (add Examples.a Examples.b) Examples.c) = "(a + b) + c")
    by (vm_compute; reflexivity).
  split; [exact Hleft |]. split; [rewrite Hleft; discriminate |].
  vm_compute. reflexivity.
Qed.

(** ** The identity and zero rules *)


Lemma identity_addition_add (l r : Expression) :
  AlgebraicRules.identity_addition (add l r)
  = if is_scalar_leaf_of_value 0 l then Some (clone r)
    else if is_scalar_leaf_of_value 0 r then Some (clone l)
    else None.
Proof. reflexivity. Qed.

Lemma identity_multiplication_multiply (l r : Expression) :
  AlgebraicRules.identity_multiplication (multiply l r)
  = if is_scalar_leaf_of_value 1 l then Some (clone r)
    else if is_scalar_leaf_of_value 1 r then Some (clone l)
    else None.
Proof. reflexivity. Qed.

Lemma zero_multiplication_multiply (l r : Expression) :
  AlgebraicRules.zero_multiplication (multiply l r)
  = if AlgebraicRules.check_zero l || AlgebraicRules.check_zero r then Some zero else None.
Proof. reflexivity. Qed.




(** No tolerance: the smallest positive double is not a zero. *)
Example check_zero_is_exact :
  AlgebraicRules.check_zero (symbol (Sym.ScalarSymbol "tiny" 0x1p-1074%float)) = false
  /\ AlgebraicRules.check_zero (symbol (Sym.ScalarSymbol "anything" (-0)%float)) = true
  /\ AlgebraicRules.check_zero (symbol (Sym.BaseSymbol "0" Sym.SCALAR)) = false.
Proof. repeat split. Qed.

(** ** Distribution of a product over binary sums *)

Lemma is_add_or_sum_iff (e : Expression) :
  DistributiveRules.is_add_or_sum e = true <-> type e = ADD \/ type e = SUM.
Proof.
  unfold DistributiveRules.is_add_or_sum.
  rewrite orb_true_iff, !ExpressionType_eqb_eq. reflexivity.
Qed.

Lemma is_add_or_sum_false (e : Expression) :
  type e <> ADD -> type e <> SUM -> DistributiveRules.is_add_or_sum e = false.
Proof.
  intros Hadd Hsum. destruct (DistributiveRules.is_add_or_sum e) eqn:Hyes; [| reflexivity].
  apply is_add_or_sum_iff in Hyes. tauto.
Qed.

Lemma distribute_multiplication_multiply (l r : Expression) :
  DistributiveRules.distribute_multiplication (multiply l r)
  = if DistributiveRules.is_add_or_sum l then
      if DistributiveRules.is_add_or_sum r then
        if ExpressionType_eqb (type l) ADD && ExpressionType_eqb (type r) ADD then
          a ← child 0 l; b ← child 1 l; c ← child 0 r; d ← child 1 r;
          Some (SumExpression
                  [multiply (clone a) (clone c); multiply (clone a) (clone d);
                   multiply (clone b) (clone c); multiply (clone b) (clone d)]
                  [1%float; 1%float; 1%float; 1%float])
        else None
      else
        if ExpressionType_eqb (type l) ADD then
          a ← child 0 l; b ← child 1 l;
          Some (add (multiply (clone a) (clone r)) (multiply (clone b) (clone r)))
        else None
    else if DistributiveRules.is_add_or_sum r then
      if ExpressionType_eqb (type r) ADD then
        b ← child 0 r; c ← child 1 r;
        Some (add (multiply (clone l) (clone b)) (multiply (clone l) (clone c)))
      else None
    else None.
Proof. reflexivity. Qed.

(** C5. On [(a+b)*(c+d)] with two binary Add operands the rule returns
    the Sum of [a*c], [a*d], [b*c], [b*d] in that order, each with
    coefficient 1.0 (the operands are copied); on [(a+b)*c] and [a*(b+c)]
    whose other operand is neither an Add nor a Sum it returns the Add of the
    two products; when either operand is tagged [SUM] it returns nothing. *)
Theorem distribute_multiplication_expansion :
  (forall a b c d,
      DistributiveRules.distribute_multiplication (multiply (add a b) (add c d))
      = Some (SumExpression
                [multiply (clone a) (clone c); multiply (clone a) (clone d);
                 multiply (clone b) (clone c); multiply (clone b) (clone d)]
                [1%float; 1%float; 1%float; 1%float]))
  /\ (forall a b c,
        type c <> ADD -> type c <> SUM ->
        DistributiveRules.distribute_multiplication (multiply (add a b) c)
        = Some (add (multiply (clone a) (clone c)) (multiply (clone b) (clone c))))
  /\ (forall a b c,
        type a <> ADD -> type a <> SUM ->
        DistributiveRules.distribute_multiplication (multiply a (add b c))
        = Some (add (multiply (clone a) (clone b)) (multiply (clone a) (clone c))))
  /\ (forall l r,
        type l = SUM \/ type r = SUM ->
        DistributiveRules.distribute_multiplication (multiply l r) = None).
Proof.
  split; [| split; [| split]].
  - intros a b c d. reflexivity.
  - intros a b c Hadd Hsum. rewrite distribute_multiplication_multiply.
    rewrite (is_add_or_sum_false c Hadd Hsum). reflexivity.
  - intros a b c Hadd Hsum. rewrite distribute_multiplication_multiply.
    rewrite (is_add_or_sum_false a Hadd Hsum). reflexivity.
  - intros l r Hsum. rewrite distribute_multiplication_multiply.
    destruct (DistributiveRules.is_add_or_sum l) eqn:Hl,
             (DistributiveRules.is_add_or_sum r) eqn:Hr; try reflexivity.
    + destruct (ExpressionType_eqb (type l) ADD) eqn:Hla; [| reflexivity].
      destruct (ExpressionType_eqb (type r) ADD) eqn:Hra; [| reflexivity].
      apply ExpressionType_eqb_eq in Hla, Hra. destruct Hsum; congruence.
    + destruct (ExpressionType_eqb (type l) ADD) eqn:Hla; [| reflexivity].
      apply ExpressionType_eqb_eq in Hla.
      destruct Hsum as [Hls | Hrs]; [congruence |].
      rewrite (proj2 (is_add_or_sum_iff r) (or_intror Hrs)) in Hr. discriminate.
    + destruct (ExpressionType_eqb (type r) ADD) eqn:Hra; [| reflexivity].
      apply ExpressionType_eqb_eq in Hra.
      destruct Hsum as [Hls | Hrs]; [| congruence].
      rewrite (proj2 (is_add_or_sum_iff l) (or_intror Hls)) in Hl. discriminate.
Qed.

(** C5 on the symbols [a], [b], [c], [d] of the demo driver, and on a
    product whose right operand is the n-ary Sum of [c] and [d]. *)
Lemma distribute_multiplication_expansion_witness :
  DistributiveRules.distribute_multiplication
    (multiply (add Examples.a Examples.b) (add Examples.c Examples.d))
  = Some (SumExpression
            [multiply Examples.a Examples.c; multiply Examples.a Examples.d;
             multiply Examples.b Examples.c; multiply Examples.b Examples.d]
            [1%float; 1%float; 1%float; 1%float])
  /\ DistributiveRules.distribute_multiplication
       (multiply (add Examples.a Examples.b) Examples.c)
     = Some (add (multiply Examples.a Examples.c) (multiply Examples.b Examples.c))
  /\ DistributiveRules.distribute_multiplication
       (multiply Examples.a (add Examples.b Examples.c))
     = Some (add (multiply Examples.a Examples.b) (multiply Examples.a Examples.c))
  /\ DistributiveRules.distribute_multiplication
       (multiply (add Examples.a Examples.b) (sum [Examples.c; Examples.d]))
     = None.
Proof.
  destruct distribute_multiplication_expansion as (Hboth & Hleft & Hright & Hsum).
  split; [apply (Hboth Examples.a Examples.b Examples.c Examples.d) |].
  split; [apply (Hleft Examples.a Examples.b Examples.c); discriminate |].
  split; [apply (Hright Examples.a Examples.b Examples.c); discriminate |].
  apply Hsum. right. reflexivity.
Defined.

(** ** Equality implies equal hashes *)

Lemma SFeqb_true (x y : spec_float) :
  SFeqb x y = true ->
  (exists s1 s2, x = S754_zero s1 /\ y = S754_zero s2) \/ x = y.
Proof.
  unfold SFeqb, SFcompare.
  destruct x as [s1 | s1 | | s1 m1 e1], y as [s2 | s2 | | s2 m2 e2];
    try discriminate;
    try (destruct s1; discriminate); try (destruct s2; discriminate).
  - intros _. left. exists s1, s2. split; reflexivity.
  - destruct s1, s2; try discriminate; intros _; right; reflexivity.
  - destruct s1, s2; try discriminate;
      destruct (Z.compare_spec e1 e2) as [He | He | He]; try discriminate;
      destruct (Pos.compare_cont Eq m1 m2) eqn:Hm; try discriminate;
      intros _; right; apply Pos.compare_eq in Hm; subst; reflexivity.
Qed.

Lemma reference_hash_respects_eq :
  @hash_double_respects_eq ReferenceHash.reference_hash.
Proof.
  intros a b Heq. simpl. rewrite FloatAxioms.eqb_spec in Heq.
  destruct (SFeqb_true _ _ Heq) as [(s1 & s2 & -> & ->) | ->]; reflexivity.
Qed.

Section HashConsistency.
Context `{StdHash}.
Hypothesis hash_double_compatible : hash_double_respects_eq.

Lemma hash_terms_of_equals_terms (coeffs : list float) (cs' : list Expression)
    (coeffs' : list float) (rest : list Expression) :
  Forall (fun c => forall other, equals c other = true -> hash c = hash other) rest ->
  forall i seed,
    (length rest + i = length cs')%nat ->
    equals_terms equals coeffs cs' coeffs' rest i = true ->
    hash_terms hash coeffs rest i seed = hash_terms hash coeffs' (drop i cs') i seed.
Proof.
  induction 1 as [| c rest Hc _ IH]; intros i seed Hlen Heq.
  - simpl in Hlen. subst i. rewrite drop_all. reflexivity.
  - simpl in Heq. destruct (cs' !! i) as [c' |] eqn:Hlookup; [| discriminate].
    destruct (equals c c') eqn:Hcc'; [| discriminate].
    destruct (PrimFloat.eqb (coefficient coeffs i) (coefficient coeffs' i)) eqn:Hcoeff;
      [| discriminate].
    simpl in Heq.
    rewrite (drop_S _ _ _ Hlookup). simpl.
    rewrite (Hc c' Hcc'), (hash_double_compatible _ _ Hcoeff).
    apply IH; [simpl in Hlen; lia | exact Heq].
Qed.

Lemma hash_of_equals (a : Expression) :
  forall other, equals a other = true -> hash a = hash other.
Proof.
  induction a as [s | t l r IHl IHr | a1 b1 IHa IHb | cs coeffs IHcs]
    using Expression_tree_ind; intros other Heq; simpl in Heq.
  - destruct other as [s' | | |]; simpl in Heq; try discriminate.
    + apply Sym_eqb_true in Heq. destruct Heq as [Hname Htype].
      simpl. unfold Sym.hash. rewrite Hname, Htype. reflexivity.
    + destruct (ExpressionType_eqb type_ SYMBOL); discriminate.
  - destruct (ExpressionType_eqb (type other) t) eqn:Htag; [| discriminate].
    simpl in Heq. destruct other as [| t' l' r' | |]; try discriminate.
    apply ExpressionType_eqb_eq in Htag. simpl in Htag. subst t'.
    apply andb_true_iff in Heq. destruct Heq as [Hl Hr].
    simpl. rewrite (IHl _ Hl), (IHr _ Hr). reflexivity.
  - destruct (ExpressionType_eqb (type other) COMMUTATOR) eqn:Htag; [| discriminate].
    simpl in Heq. destruct other as [| | a2 b2 |]; try discriminate.
    apply andb_true_iff in Heq. destruct Heq as [Ha Hb].
    simpl. rewrite (IHa _ Ha), (IHb _ Hb). reflexivity.
  - destruct (ExpressionType_eqb (type other) SUM) eqn:Htag; [| discriminate].
    simpl in Heq. destruct other as [| | | cs' coeffs']; try discriminate.
    destruct (Nat.eqb (length cs') (length cs)) eqn:Hlen; [| discriminate].
    simpl in Heq. apply Nat.eqb_eq in Hlen.
    simpl. rewrite (hash_terms_of_equals_terms coeffs cs' coeffs' cs IHcs 0%nat);
      [reflexivity | lia | exact Heq].
Qed.

End HashConsistency.

(** C8. For all [a] and [b] over the four implemented node classes,
    [a.equals(b)] implies [a.hash() == b.hash()], for any [std::hash] family
    whose [hash<double>] sends doubles that compare equal to one hash, as
    the standard requires; the inherited [Expression::equals] compares the
    hashes itself. *)
Theorem equals_implies_equal_hash `{StdHash} (a b : Expression) :
  hash_double_respects_eq ->
  (equals a b = true -> hash a = hash b)
  /\ (Expression_equals a b = true -> hash a = hash b).
Proof.
  intros Hdouble. split.
  - apply hash_of_equals. exact Hdouble.
  - unfold Expression_equals. intros Heq. apply andb_true_iff in Heq.
    destruct Heq as [_ Heq]. apply Z.eqb_eq. exact Heq.
Qed.

(** C8 at two sums that are equal although their coefficients, [0.0] and
    [-0.0], are different doubles; the hashes are those of [ReferenceHash]. *)
Lemma equals_implies_equal_hash_witness :
  equals Examples.plus_zero_times_x Examples.minus_zero_times_x = true
  /\ @hash ReferenceHash.reference_hash Examples.plus_zero_times_x
     = @hash ReferenceHash.reference_hash Examples.minus_zero_times_x.
Proof.
  split; [reflexivity |].
  apply (proj1 (@equals_implies_equal_hash ReferenceHash.reference_hash
                  Examples.plus_zero_times_x Examples.minus_zero_times_x
                  reference_hash_respects_eq)).
  reflexivity.
Defined.

(** The converse is not required, and fails for a family that hashes every
    string alike. *)
Example equal_hash_without_equals :
  let constant_hash := {| hash_string := fun _ => 0; hash_int := fun z => z;
                          hash_double := fun _ => 0 |} in
  @hash constant_hash Examples.a = @hash constant_hash Examples.b
  /\ equals Examples.a Examples.b = false.
Proof. split; reflexivity. Qed.

(** ** The rewriting loop terminates within its cap *)

Import Simplifier.

Lemma apply_category_iterations (enable_trace : bool) (old_result : string)
    (rule_type : RuleType) (rules : list Rule) (st : LoopState) :
  iterations (apply_category enable_trace old_result rule_type rules st) = iterations st.
Proof.
  unfold apply_category. destruct (apply_rules (result st) rules) as [new_expr |];
    [| reflexivity].
  destruct (negb _); reflexivity.
Qed.

Lemma for_body_iterations (self : Simplifier) (old_result : string)
    (st : LoopState) (rule_type : RuleType) :
  iterations (for_body self old_result st rule_type) = iterations st.
Proof.
  unfold for_body. destruct (rules_ self !! rule_type) as [rules |]; [| reflexivity].
  apply apply_category_iterations.
Qed.

Lemma fold_for_body_iterations (self : Simplifier) (old_result : string)
    (order : list RuleType) (st : LoopState) :
  iterations (fold_left (for_body self old_result) order st) = iterations st.
Proof.
  revert st. induction order as [| rule_type order IH]; intros st; simpl.
  - reflexivity.
  - rewrite IH. apply for_body_iterations.
Qed.

Lemma while_body_iterations (self : Simplifier) (st : LoopState) :
  iterations (while_body self st) = iterations st + 1.
Proof.
  unfold while_body. cbn [iterations].
  rewrite fold_for_body_iterations. reflexivity.
Qed.

(** With fuel for every iteration the cap leaves, the executable loop is a
    run of the [while] loop, and its counter stays within the cap. *)
Lemma while_loop_runs (self : Simplifier) (fuel : nat) :
  forall st,
    max_iterations <= iterations st + Z.of_nat fuel ->
    while_runs self st (while_loop self fuel st)
    /\ iterations st <= iterations (while_loop self fuel st)
    /\ (iterations st <= max_iterations ->
        iterations (while_loop self fuel st) <= max_iterations).
Proof.
  induction fuel as [| fuel IH]; intros st Hfuel; simpl.
  - split; [| lia]. apply while_exit. unfold while_cond.
    replace (iterations st <? max_iterations) with false by (symmetry; apply Z.ltb_ge; lia).
    apply andb_false_r.
  - destruct (while_cond st) eqn:Hcond.
    + assert (Hlt : iterations st < max_iterations).
      { unfold while_cond in Hcond. apply andb_true_iff in Hcond.
        destruct Hcond as [_ Hlt]. apply Z.ltb_lt in Hlt. exact Hlt. }
      destruct (IH (while_body self st)) as (Hrun & Hlow & Hhigh).
      { rewrite while_body_iterations. lia. }
      rewrite while_body_iterations in Hlow, Hhigh.
      split; [| split].
      * apply while_iterate; assumption.
      * lia.
      * intros _. apply Hhigh. lia.
    + split; [| lia]. apply while_exit. exact Hcond.
Qed.

Lemma while_runs_deterministic (self : Simplifier) (st st1 st2 : LoopState) :
  while_runs self st st1 -> while_runs self st st2 -> st1 = st2.
Proof.
  intros Hrun1. revert st2.
  induction Hrun1 as [st Hexit | st st' Hcond _ IH]; intros st2 Hrun2.
  - inversion Hrun2 as [st0 Hexit2 | st0 st0' Hcond2 _]; subst; [reflexivity | congruence].
  - inversion Hrun2 as [st0 Hexit2 | st0 st0' Hcond2 Hrest]; subst; [congruence |].
    apply IH. exact Hrest.
Qed.

Lemma while_runs_exit (self : Simplifier) (st st' : LoopState) :
  while_runs self st st' -> while_cond st' = false.
Proof. induction 1; assumption. Qed.

(** C3. For every simplifier (whatever its rule table) and every input,
    the [while] loop of [simplify] has a run from its initial state; the run
    ends in the state [simplify] returns from, after at least one and at
    most 10 iterations; and no run of the loop ends elsewhere. *)
Theorem simplify_terminates_within_cap (self : Simplifier) (expr : Expression) :
  exists final : LoopState,
    while_runs self (initial_state self expr) final
    /\ while_cond final = false
    /\ 1 <= iterations final <= 10
    /\ simplify self expr = result final
    /\ (forall st, while_runs self (initial_state self expr) st -> st = final).
Proof.
  exists (simplify_state self expr).
  destruct (while_loop_runs self (Z.to_nat max_iterations) (initial_state self expr))
    as (Hrun & _ & Hhigh).
  { simpl. unfold max_iterations. lia. }
  fold (simplify_state self expr) in Hrun, Hhigh.
  split; [exact Hrun |].
  split; [exact (while_runs_exit _ _ _ Hrun) |].
  split; [| split].
  - split; [| apply Hhigh; simpl; unfold max_iterations; lia].
    unfold simplify_state. simpl.
    destruct (while_loop_runs self 9 (while_body self (initial_state self expr)))
      as (_ & Hlow & _).
    { rewrite while_body_iterations. simpl. unfold max_iterations. lia. }
    rewrite while_body_iterations in Hlow. simpl in Hlow. exact Hlow.
  - reflexivity.
  - intros st Hst. exact (while_runs_deterministic _ _ _ _ Hst Hrun).
Qed.

(** ** One pass: category order, first match, change by rendering *)

Lemma apply_rules_first_match (rules : list Rule) (e : Expression) :
  apply_rules e rules = first_match rules e.
Proof.
  unfold first_match. induction rules as [| rule rules IH]; simpl; [reflexivity |].
  destruct (decide (is_Some (rule e))) as [[r Hr] | Hnone].
  - simpl. rewrite Hr. reflexivity.
  - destruct (rule e) as [r |] eqn:Hr; [exfalso; apply Hnone; eexists; reflexivity |].
    rewrite IH. destruct (list_find _ rules) as [[i rule'] |]; reflexivity.
Qed.

Lemma apply_rules_some (rules : list Rule) (e r : Expression) :
  apply_rules e rules = Some r
  <-> exists (before : list Rule) (rule : Rule) (after : list Rule),
        rules = (before ++ rule :: after)%list
        /\ Forall (fun earlier : Rule => earlier e = None) before
        /\ rule e = Some r.
Proof.
  split.
  - induction rules as [| rule rules IH]; simpl; [discriminate |].
    destruct (rule e) as [r' |] eqn:Hrule.
    + intros [= ->]. exists [], rule, rules. repeat split; [constructor | exact Hrule].
    + intros Hrest. destruct (IH Hrest) as (before & rule' & after & -> & Hnone & Hsome).
      exists (rule :: before), rule', after.
      repeat split; [constructor; assumption | exact Hsome].
  - intros (before & rule & after & -> & Hnone & Hsome).
    induction Hnone as [| earlier before Hearlier _ IH]; simpl.
    + rewrite Hsome. reflexivity.
    + rewrite Hearlier. exact IH.
Qed.

Lemma apply_rules_none (rules : list Rule) (e : Expression) :
  apply_rules e rules = None <-> Forall (fun rule : Rule => rule e = None) rules.
Proof.
  induction rules as [| rule rules IH]; simpl.
  - split; [constructor | reflexivity].
  - destruct (rule e) as [r |] eqn:Hrule.
    + split; [discriminate |]. intros Hall. inversion Hall; congruence.
    + rewrite IH. split; [constructor; assumption |]. intros Hall. inversion Hall; assumption.
Qed.

Lemma for_body_result (self : Simplifier) (old_result : string)
    (st : LoopState) (rule_type : RuleType) :
  result (for_body self old_result st rule_type)
  = category_outcome self rule_type (result st).
Proof.
  unfold for_body, category_outcome, apply_category.
  destruct (rules_ self !! rule_type) as [rules |]; [| reflexivity].
  rewrite <- apply_rules_first_match.
  destruct (apply_rules (result st) rules) as [new_expr |]; [| reflexivity].
  destruct (decide (to_string new_expr = to_string (result st))) as [Hsame | Hdiff].
  - rewrite Hsame, String.eqb_refl. reflexivity.
  - apply String.eqb_neq in Hdiff. rewrite Hdiff. reflexivity.
Qed.

Lemma for_body_changed (self : Simplifier) (old_result : string)
    (st : LoopState) (rule_type : RuleType) :
  changed (for_body self old_result st rule_type)
  = changed st
    || negb (String.eqb (to_string (category_outcome self rule_type (result st)))
                        (to_string (result st))).
Proof.
  unfold for_body, category_outcome, apply_category.
  destruct (rules_ self !! rule_type) as [rules |];
    [| rewrite String.eqb_refl, orb_false_r; reflexivity].
  rewrite <- apply_rules_first_match.
  destruct (apply_rules (result st) rules) as [new_expr |];
    [| rewrite String.eqb_refl, orb_false_r; reflexivity].
  destruct (decide (to_string new_expr = to_string (result st))) as [Hsame | Hdiff].
  - rewrite Hsame, !String.eqb_refl, orb_false_r. reflexivity.
  - apply String.eqb_neq in Hdiff. rewrite Hdiff. simpl. rewrite orb_true_r. reflexivity.
Qed.

Lemma rendering_differs (s1 s2 : string) :
  negb (String.eqb s1 s2) = true <-> s1 <> s2.
Proof. rewrite negb_true_iff. apply String.eqb_neq. Qed.

Lemma while_body_outcome (self : Simplifier) (st : LoopState) :
  let t0 := result st in
  let t1 := category_outcome self ALGEBRAIC t0 in
  let t2 := category_outcome self DISTRIBUTIVE t1 in
  let t3 := category_outcome self COMMUTATOR t2 in
  let t4 := category_outcome self TENSOR t3 in
  let t5 := category_outcome self OPERATOR t4 in
  let t6 := category_outcome self SYMMETRY t5 in
  result (while_body self st) = t6
  /\ (changed (while_body self st) = true
      <-> to_string t1 <> to_string t0 \/ to_string t2 <> to_string t1
          \/ to_string t3 <> to_string t2 \/ to_string t4 <> to_string t3
          \/ to_string t5 <> to_string t4 \/ to_string t6 <> to_string t5).
Proof.
  intros t0 t1 t2 t3 t4 t5 t6. split.
  - unfold while_body, rule_order. cbn [fold_left result].
    rewrite !for_body_result. reflexivity.
  - unfold while_body, rule_order. cbn [fold_left changed].
    rewrite !for_body_changed, !for_body_result. cbn [result changed].
    fold t0. fold t1. fold t2. fold t3. fold t4. fold t5. fold t6.
    rewrite orb_false_l, !orb_true_iff, !rendering_differs. tauto.
Qed.

(** ** The default rule table *)

Lemma default_rules (enable_trace : bool) :
  rules_ (new enable_trace) !! ALGEBRAIC = Some default_algebraic_rules
  /\ rules_ (new enable_trace) !! DISTRIBUTIVE = Some default_distributive_rules
  /\ rules_ (new enable_trace) !! COMMUTATOR = Some default_commutator_rules
  /\ rules_ (new enable_trace) !! TENSOR = None
  /\ rules_ (new enable_trace) !! OPERATOR = None
  /\ rules_ (new enable_trace) !! SYMMETRY = None.
Proof. repeat split. Qed.

(** ** Copies, and reflexivity of [equals] *)

Lemma clone_terms_sum (coeffs : list float) (rest : list Expression) :
  forall (i : nat) (done : list Expression) (done_coeffs : list float),
    clone_terms clone coeffs rest i (SumExpression done done_coeffs)
    = SumExpression (done ++ map clone rest)
        (done_coeffs ++ map (coefficient coeffs) (seq i (length rest))).
Proof.
  induction rest as [| c rest IH]; intros i done done_coeffs; simpl.
  - rewrite !app_nil_r. reflexivity.
  - rewrite IH, <- !app_assoc. reflexivity.
Qed.

Lemma clone_sum (cs : list Expression) (coeffs : list float) :
  clone (SumExpression cs coeffs)
  = SumExpression (map clone cs) (map (coefficient coeffs) (seq 0 (length cs))).
Proof. simpl. rewrite clone_terms_sum. reflexivity. Qed.

Lemma coefficient_of_seq (coeffs : list float) (n i : nat) :
  (i < n)%nat -> coefficient (map (coefficient coeffs) (seq 0 n)) i = coefficient coeffs i.
Proof.
  intros Hlt. unfold coefficient at 1.
  rewrite list_lookup_fmap, lookup_seq_lt by exact Hlt. reflexivity.
Qed.







Lemma to_string_terms_clone (coeffs coeffs' : list float) (rest : list Expression) :
  Forall (fun c => to_string (clone c) = to_string c) rest ->
  forall i,
    (forall j, (i <= j < i + length rest)%nat -> coefficient coeffs' j = coefficient coeffs j) ->
    to_string_terms to_string coeffs' (map clone rest) i
    = to_string_terms to_string coeffs rest i.
Proof.
  induction 1 as [| c rest Hc _ IH]; intros i Hcoeffs; simpl; [reflexivity |].
  rewrite Hc, (Hcoeffs i) by (simpl; lia).
  rewrite IH; [reflexivity |]. intros j Hj. apply Hcoeffs. simpl. lia.
Qed.

Lemma type_clone (e : Expression) : type (clone e) = type e.
Proof. destruct e; try reflexivity. rewrite clone_sum. reflexivity. Qed.

(** A copy renders as its original does. *)
Lemma to_string_clone (e : Expression) : to_string (clone e) = to_string e.
Proof.
  induction e as [s | t l r IHl IHr | a b IHa IHb | cs coeffs IHcs]
    using Expression_tree_ind.
  - simpl. rewrite Sym_clone_id. reflexivity.
  - simpl. rewrite IHl, IHr.
    unfold needs_parens. rewrite !type_clone. reflexivity.
  - simpl. rewrite IHa, IHb. reflexivity.
  - rewrite clone_sum. destruct cs as [| c cs]; [reflexivity |].
    change (to_string (SumExpression (c :: cs) coeffs))
      with (to_string_terms to_string coeffs (c :: cs) 0).
    change (to_string (SumExpression (map clone (c :: cs))
                         (map (coefficient coeffs) (seq 0 (length (c :: cs))))))
      with (to_string_terms to_string
              (map (coefficient coeffs) (seq 0 (length (c :: cs))))
              (map clone (c :: cs)) 0).
    apply to_string_terms_clone; [exact IHcs |].
    intros j Hj. apply coefficient_of_seq. lia.
Qed.

Lemma coefficients_of_seq (coeffs : list float) :
  map (coefficient coeffs) (seq 0 (length coeffs)) = coeffs.
Proof.
  apply list_eq. intros i. rewrite list_lookup_fmap.
  destruct (decide (i < length coeffs)%nat) as [Hlt | Hge].
  - rewrite lookup_seq_lt by exact Hlt. simpl. unfold coefficient.
    destruct (lookup_lt_is_Some_2 coeffs i Hlt) as [c Hc]. rewrite Hc. reflexivity.
  - rewrite lookup_seq_ge by lia. simpl. symmetry. apply lookup_ge_None. lia.
Qed.

(** On the trees the constructors build, a copy is the original. *)
Lemma clone_of_aligned (e : Expression) : coefficients_aligned e = true -> clone e = e.
Proof.
  induction e as [s | t l r IHl IHr | a b IHa IHb | cs coeffs IHcs]
    using Expression_tree_ind; intros Haligned.
  - simpl. rewrite Sym_clone_id. reflexivity.
  - simpl in *. apply andb_true_iff in Haligned. destruct Haligned as [Hl Hr].
    rewrite (IHl Hl), (IHr Hr). reflexivity.
  - simpl in *. apply andb_true_iff in Haligned. destruct Haligned as [Ha Hb].
    rewrite (IHa Ha), (IHb Hb). reflexivity.
  - rewrite clone_sum. simpl in Haligned.
    apply andb_true_iff in Haligned. destruct Haligned as [Hcs Hlen].
    apply Nat.eqb_eq in Hlen. rewrite <- Hlen, coefficients_of_seq. f_equal.
    clear Hlen. induction IHcs as [| c cs Hc _ IH]; simpl; [reflexivity |].
    simpl in Hcs. apply andb_true_iff in Hcs. destruct Hcs as [Hc_aligned Hcs].
    rewrite (Hc Hc_aligned), (IH Hcs). reflexivity.
Qed.

(** ** Running the default simplifier *)

Lemma category_outcome_unregistered (self : Simplifier) (rule_type : RuleType)
    (tree : Expression) :
  rules_ self !! rule_type = None -> category_outcome self rule_type tree = tree.
Proof. intros Hnone. unfold category_outcome. rewrite Hnone. reflexivity. Qed.

Lemma category_outcome_no_match (self : Simplifier) (rule_type : RuleType)
    (rules : list Rule) (tree : Expression) :
  rules_ self !! rule_type = Some rules ->
  apply_rules tree rules = None ->
  category_outcome self rule_type tree = tree.
Proof.
  intros Hrules Hnone. unfold category_outcome.
  rewrite Hrules, <- apply_rules_first_match, Hnone. reflexivity.
Qed.

Lemma category_outcome_match (self : Simplifier) (rule_type : RuleType)
    (rules : list Rule) (tree new_tree : Expression) :
  rules_ self !! rule_type = Some rules ->
  apply_rules tree rules = Some new_tree ->
  to_string new_tree <> to_string tree ->
  category_outcome self rule_type tree = new_tree.
Proof.
  intros Hrules Hsome Hdiff. unfold category_outcome.
  rewrite Hrules, <- apply_rules_first_match, Hsome.
  destruct (decide (to_string new_tree = to_string tree)); [contradiction | reflexivity].
Qed.

Lemma while_loop_step (self : Simplifier) (fuel : nat) (st : LoopState) :
  changed st = true -> iterations st < max_iterations ->
  while_loop self (S fuel) st = while_loop self fuel (while_body self st).
Proof.
  intros Hchanged Hlt. simpl. unfold while_cond. rewrite Hchanged.
  apply Z.ltb_lt in Hlt. rewrite Hlt. reflexivity.
Qed.

Lemma while_loop_stop (self : Simplifier) (fuel : nat) (st : LoopState) :
  changed st = false -> while_loop self fuel st = st.
Proof.
  intros Hchanged. destruct fuel; simpl; [reflexivity |].
  unfold while_cond. rewrite Hchanged. reflexivity.
Qed.

(** A pass of the default simplifier that finds no rule to apply. *)
Lemma default_pass_quiet (enable_trace : bool) (st : LoopState) :
  apply_rules (result st) default_algebraic_rules = None ->
  apply_rules (result st) default_distributive_rules = None ->
  apply_rules (result st) default_commutator_rules = None ->
  result (while_body (new enable_trace) st) = result st
  /\ changed (while_body (new enable_trace) st) = false.
Proof.
  intros Halg Hdist Hcomm.
  destruct (default_rules enable_trace) as (Ra & Rd & Rc & Rt & Ro & Rs).
  destruct (while_body_outcome (new enable_trace) st) as [Hresult Hchanged].
  cbv zeta in Hresult, Hchanged.
  rewrite (category_outcome_no_match _ _ _ _ Ra Halg) in Hresult, Hchanged.
  rewrite (category_outcome_no_match _ _ _ _ Rd Hdist) in Hresult, Hchanged.
  rewrite (category_outcome_no_match _ _ _ _ Rc Hcomm) in Hresult, Hchanged.
  rewrite (category_outcome_unregistered _ _ _ Rt) in Hresult, Hchanged.
  rewrite (category_outcome_unregistered _ _ _ Ro) in Hresult, Hchanged.
  rewrite (category_outcome_unregistered _ _ _ Rs) in Hresult, Hchanged.
  split; [exact Hresult |].
  destruct (changed (while_body (new enable_trace) st)); [| reflexivity].
  exfalso. destruct Hchanged as [Hdiff _]. specialize (Hdiff eq_refl). tauto.
Qed.

Lemma to_string_zero : to_string zero = "0=0".
Proof. vm_compute. reflexivity. Qed.


(** The run that makes one changing pass and then a quiet one. *)
Lemma simplify_settles_after_one_pass (enable_trace : bool) (expr tree : Expression) :
  result (while_body (new enable_trace) (initial_state (new enable_trace) expr)) = tree ->
  changed (while_body (new enable_trace) (initial_state (new enable_trace) expr)) = true ->
  apply_rules tree default_algebraic_rules = None ->
  apply_rules tree default_distributive_rules = None ->
  apply_rules tree default_commutator_rules = None ->
  simplify (new enable_trace) expr = tree.
Proof.
  intros Hresult Hchanged Halg Hdist Hcomm.
  set (self := new enable_trace) in *. set (st0 := initial_state self expr) in *.
  destruct (default_pass_quiet enable_trace (while_body self st0)) as [Hresult2 Hchanged2];
    try (fold self; rewrite Hresult; assumption).
  fold self in Hresult2, Hchanged2.
  unfold simplify, simplify_state. fold st0.
  change (Z.to_nat max_iterations) with 10%nat.
  rewrite while_loop_step by (simpl; unfold max_iterations; first [reflexivity | lia]).
  rewrite while_loop_step;
    [| exact Hchanged | rewrite while_body_iterations; simpl; unfold max_iterations; lia].
  rewrite while_loop_stop by exact Hchanged2.
  rewrite Hresult2. exact Hresult.
Qed.

(** The run whose first pass is quiet: the copy of the input comes back. *)
Lemma simplify_quiet (enable_trace : bool) (expr : Expression) :
  apply_rules (clone expr) default_algebraic_rules = None ->
  apply_rules (clone expr) default_distributive_rules = None ->
  apply_rules (clone expr) default_commutator_rules = None ->
  simplify (new enable_trace) expr = clone expr.
Proof.
  intros Halg Hdist Hcomm.
  destruct (default_pass_quiet enable_trace (initial_state (new enable_trace) expr))
    as [Hresult Hchanged]; try assumption.
  unfold simplify, simplify_state.
  change (Z.to_nat max_iterations) with 10%nat.
  rewrite while_loop_step by (simpl; unfold max_iterations; first [reflexivity | lia]).
  rewrite while_loop_stop by exact Hchanged.
  exact Hresult.
Qed.

(** ** The self-commutator *)





(** ** The end-to-end scenario of the demo driver *)

Lemma length_parenthesize (b : bool) (s : string) :
  String.length (parenthesize b s) = (String.length s + (if b then 2 else 0))%nat.
Proof. unfold parenthesize. destruct b; rewrite !append_length; simpl; lia. Qed.

Lemma length_operator_symbol (t : ExpressionType) :
  String.length (operator_symbol t) = 1%nat.
Proof. destruct t; reflexivity. Qed.

Lemma length_to_string_binary (t : ExpressionType) (l r : Expression) :
  String.length (to_string (BinaryOpExpression t l r))
  = (String.length (to_string l) + (if needs_parens l then 2 else 0) + 3
     + String.length (to_string r) + (if needs_parens r then 2 else 0))%nat.
Proof.
  change (to_string (BinaryOpExpression t l r))
    with (parenthesize (needs_parens l) (to_string l) +:+ " " +:+ operator_symbol t +:+ " "
            +:+ parenthesize (needs_parens r) (to_string r)).
  rewrite !append_length, !length_parenthesize, length_operator_symbol. simpl. lia.
Qed.

Lemma length_to_string_variable (n : string) :
  String.length (to_string (Examples.variable n)) = String.length n.
Proof. reflexivity. Qed.

Lemma length_to_string_scalars :
  String.length (to_string Examples.scalar_zero) = 3%nat
  /\ String.length (to_string Examples.scalar_one) = 3%nat.
Proof. split; vm_compute; reflexivity. Qed.

Lemma to_string_sum_of_four (a b c d : Expression) :
  to_string (SumExpression [a; b; c; d] [1%float; 1%float; 1%float; 1%float])
  = to_string a +:+ " + " +:+ to_string b +:+ " + " +:+ to_string c +:+ " + "
      +:+ to_string d +:+ "".
Proof. reflexivity. Qed.

Ltac rendered_lengths :=
  let H0 := fresh "H0" in
  let H1 := fresh "H1" in
  destruct length_to_string_scalars as [H0 H1];
  unfold Examples.noisy_product, Examples.noisy_factors, Examples.noisy_expansion,
    add, multiply;
  rewrite ?to_string_sum_of_four, ?append_length;
  rewrite ?length_to_string_binary, ?length_to_string_variable, ?H0, ?H1;
  cbn.

Lemma length_noisy_product (xn yn : string) :
  String.length (to_string (Examples.noisy_product xn yn))
  = (String.length xn + String.length yn + 31)%nat.
Proof. rendered_lengths. lia. Qed.

Lemma length_noisy_factors (xn yn : string) :
  String.length (to_string (Examples.noisy_factors xn yn))
  = (String.length xn + String.length yn + 25)%nat.
Proof. rendered_lengths. lia. Qed.

Lemma length_noisy_expansion (xn yn : string) :
  String.length (to_string (Examples.noisy_expansion xn yn))
  = (2 * String.length xn + 2 * String.length yn + 45)%nat.
Proof. rendered_lengths. lia. Qed.

Lemma length_plain_product (xn yn : string) :
  String.length (to_string (multiply (Examples.variable xn) (Examples.variable yn)))
  = (String.length xn + String.length yn + 3)%nat.
Proof. rendered_lengths. lia. Qed.

Lemma differ_by_length (s1 s2 : string) :
  String.length s1 <> String.length s2 -> s1 <> s2.
Proof. intros Hlen ->. apply Hlen. reflexivity. Qed.

Lemma simplify_noisy_product (enable_trace : bool) (xn yn : string) :
  simplify (new enable_trace) (Examples.noisy_product xn yn)
  = Examples.noisy_expansion xn yn.
Proof.
  destruct (default_rules enable_trace) as (Ra & Rd & Rc & Rt & Ro & Rs).
  set (self := new enable_trace) in *.
  set (st0 := initial_state self (Examples.noisy_product xn yn)).
  assert (Halg : apply_rules (result st0) default_algebraic_rules
                 = Some (Examples.noisy_factors xn yn)) by reflexivity.
  assert (Hdiff1 : to_string (Examples.noisy_factors xn yn) <> to_string (result st0)).
  { apply differ_by_length.
    change (result st0) with (Examples.noisy_product xn yn).
    rewrite length_noisy_factors, length_noisy_product. lia. }
  assert (Hdist : apply_rules (Examples.noisy_factors xn yn) default_distributive_rules
                  = Some (Examples.noisy_expansion xn yn)) by reflexivity.
  assert (Hdiff2 : to_string (Examples.noisy_expansion xn yn)
                   <> to_string (Examples.noisy_factors xn yn)).
  { apply differ_by_length. rewrite length_noisy_factors, length_noisy_expansion. lia. }
  assert (Hcomm : apply_rules (Examples.noisy_expansion xn yn) default_commutator_rules
                  = None) by reflexivity.
  destruct (while_body_outcome self st0) as [Hresult Hchanged].
  cbv zeta in Hresult, Hchanged.
  rewrite (category_outcome_match _ _ _ _ _ Ra Halg Hdiff1) in Hresult, Hchanged.
  rewrite (category_outcome_match _ _ _ _ _ Rd Hdist Hdiff2) in Hresult, Hchanged.
  rewrite (category_outcome_no_match _ _ _ _ Rc Hcomm) in Hresult, Hchanged.
  rewrite (category_outcome_unregistered _ _ _ Rt) in Hresult, Hchanged.
  rewrite (category_outcome_unregistered _ _ _ Ro) in Hresult, Hchanged.
  rewrite (category_outcome_unregistered _ _ _ Rs) in Hresult, Hchanged.
  apply simplify_settles_after_one_pass; try reflexivity.
  - exact Hresult.
  - apply Hchanged. left. exact Hdiff1.
Qed.

Lemma simplify_plain_product (enable_trace : bool) (xn yn : string) :
  simplify (new enable_trace) (multiply (Examples.variable xn) (Examples.variable yn))
  = multiply (Examples.variable xn) (Examples.variable yn).
Proof. apply (simplify_quiet enable_trace); reflexivity. Qed.

(** C1, as the code has it. For variables of any two names, [simplify]
    turns [((x+0) * (y + 1*0)) + 0] into the n-ary Sum of [x*y], [x*(1*0)],
    [0*y] and [0*(1*0)]: [identity_addition] drops the outer [+ 0],
    [distribute_multiplication] expands the product, and no rule reaches
    below the root.  [simplify] leaves [x*y] as it is, and the two results
    render differently. *)
Theorem simplify_noisy_product_expands (enable_trace : bool) (xn yn : string) :
  simplify (new enable_trace) (Examples.noisy_product xn yn)
  = Examples.noisy_expansion xn yn
  /\ simplify (new enable_trace) (multiply (Examples.variable xn) (Examples.variable yn))
     = multiply (Examples.variable xn) (Examples.variable yn)
  /\ to_string (simplify (new enable_trace) (Examples.noisy_product xn yn))
     <> to_string (simplify (new enable_trace)
                     (multiply (Examples.variable xn) (Examples.variable yn))).
Proof.
  rewrite simplify_noisy_product, simplify_plain_product.
  split; [reflexivity |]. split; [reflexivity |].
  apply differ_by_length. rewrite length_noisy_expansion, length_plain_product. lia.
Qed.

(** C1 as stated fails on the symbols [x] and [y] of the demo driver: the
    two renderings are not the same string. *)
Lemma simplify_noisy_product_not_plain :
  to_string (simplify (new true) (Examples.noisy_product "x" "y"))
  = "x * y + x * 1=1 * 0=0 + 0=0 * y + 0=0 * 1=1 * 0=0"
  /\ to_string (simplify (new true) (multiply Examples.x Examples.y)) = "x * y"
  /\ to_string (simplify (new true) (Examples.noisy_product "x" "y"))
     <> to_string (simplify (new true) (multiply Examples.x Examples.y)).
Proof.
  split; [vm_compute; reflexivity |]. split; [vm_compute; reflexivity |].
  vm_compute. discriminate.
Qed.

(** The cap at work: on [a * (b + c)] distribution and factoring undo each
    other pass after pass, and the loop stops at 10 with [changed] set. *)
Example simplify_oscillates_until_cap :
  let final := simplify_state (new false) (multiply Examples.a (add Examples.b Examples.c)) in
  iterations final = 10
  /\ changed final = true
  /\ to_string (result final) = "a * (b + c)".
Proof. repeat split; vm_compute; reflexivity. Qed.

(** ** The identity laws through [simplify], on a variable leaf *)

(** The run in which an algebraic rule rewrites the root and nothing
    applies to the replacement. *)
Lemma simplify_by_algebraic_rule (enable_trace : bool) (expr new_tree : Expression) :
  apply_rules (clone expr) default_algebraic_rules = Some new_tree ->
  to_string new_tree <> to_string (clone expr) ->
  apply_rules new_tree default_algebraic_rules = None ->
  apply_rules new_tree default_distributive_rules = None ->
  apply_rules new_tree default_commutator_rules = None ->
  simplify (new enable_trace) expr = new_tree.
Proof.
  intros Halg Hdiff Halg' Hdist Hcomm.
  destruct (default_rules enable_trace) as (Ra & Rd & Rc & Rt & Ro & Rs).
  set (self := new enable_trace) in *.
  destruct (while_body_outcome self (initial_state self expr)) as [Hresult Hchanged].
  cbv zeta in Hresult, Hchanged.
  change (result (initial_state self expr)) with (clone expr) in Hresult, Hchanged.
  rewrite (category_outcome_match _ _ _ _ _ Ra Halg Hdiff) in Hresult, Hchanged.
  rewrite (category_outcome_no_match _ _ _ _ Rd Hdist) in Hresult, Hchanged.
  rewrite (category_outcome_no_match _ _ _ _ Rc Hcomm) in Hresult, Hchanged.
  rewrite (category_outcome_unregistered _ _ _ Rt) in Hresult, Hchanged.
  rewrite (category_outcome_unregistered _ _ _ Ro) in Hresult, Hchanged.
  rewrite (category_outcome_unregistered _ _ _ Rs) in Hresult, Hchanged.
  apply simplify_settles_after_one_pass; try assumption.
  apply Hchanged. left. exact Hdiff.
Qed.

(** [simplify(x + 0) == x], [simplify(x * 1) == x] and
    [simplify(x * 0) == 0] for a variable [x] of any name and the scalar
    leaves ["0"] and ["1"]. *)
Lemma simplify_identity_laws (enable_trace : bool) (n : string) :
  simplify (new enable_trace) (add (Examples.variable n) Examples.scalar_zero)
  = Examples.variable n
  /\ simplify (new enable_trace) (multiply (Examples.variable n) Examples.scalar_one)
     = Examples.variable n
  /\ simplify (new enable_trace) (multiply (Examples.variable n) Examples.scalar_zero)
     = zero.
Proof.
  destruct length_to_string_scalars as [H0 H1].
  split; [| split]; apply simplify_by_algebraic_rule; try reflexivity;
    apply differ_by_length.
  - change (clone (add (Examples.variable n) Examples.scalar_zero))
      with (add (Examples.variable n) Examples.scalar_zero).
    unfold add. rewrite length_to_string_binary, length_to_string_variable, H0. cbn. lia.
  - change (clone (multiply (Examples.variable n) Examples.scalar_one))
      with (multiply (Examples.variable n) Examples.scalar_one).
    unfold multiply. rewrite length_to_string_binary, length_to_string_variable, H1.
    cbn. lia.
  - change (clone (multiply (Examples.variable n) Examples.scalar_zero))
      with (multiply (Examples.variable n) Examples.scalar_zero).
    unfold multiply. rewrite to_string_zero, length_to_string_binary,
      length_to_string_variable, H0. cbn. lia.
Qed.

(** ** Renderings compared character by character *)

Lemma chars_append (s1 s2 : string) : chars (s1 +:+ s2) = (chars s1 ++ chars s2)%list.
Proof.
  induction s1 as [| ch s1 IH]; [reflexivity |].
  rewrite append_cons. unfold chars in *. simpl. rewrite IH. reflexivity.
Qed.

(** Two lists that are each other shifted by one position, at the end or
    at the start, agree on the characters on both sides of the shift. *)
Lemma suffix_clash {A : Type} (s : list A) :
  forall (X Y : list A) (c1 c2 : A),
    ((X ++ s) ++ [c1] = (Y ++ [c2]) ++ s)%list -> c1 = c2.
Proof.
  induction s as [| x s IH] using rev_ind; intros X Y c1 c2 Heq.
  - rewrite !app_nil_r in Heq. apply app_inj_tail in Heq. tauto.
  - rewrite !app_assoc in Heq. apply app_inj_tail in Heq. destruct Heq as [Heq ->].
    apply (IH X Y x c2). exact Heq.
Qed.

Lemma prefix_clash {A : Type} (s : list A) :
  forall (X Y : list A) (c1 c2 : A),
    (c1 :: (s ++ X) = s ++ (c2 :: Y))%list -> c1 = c2.
Proof.
  induction s as [| x s IH]; intros X Y c1 c2 Heq; simpl in Heq.
  - congruence.
  - injection Heq as -> Heq. apply (IH X Y x c2). exact Heq.
Qed.

Lemma chars_binary (t : ExpressionType) (l r : Expression) :
  chars (to_string (BinaryOpExpression t l r))
  = (operand_chars l ++ chars (" " +:+ operator_symbol t +:+ " ") ++ operand_chars r)%list.
Proof.
  change (to_string (BinaryOpExpression t l r))
    with (parenthesize (needs_parens l) (to_string l) +:+ " " +:+ operator_symbol t +:+ " "
            +:+ parenthesize (needs_parens r) (to_string r)).
  rewrite !parenthesize_rendered. unfold operand_chars.
  rewrite !chars_append. rewrite <- !app_assoc. reflexivity.
Qed.

(** The clash lemmas applied to an equation between two renderings. *)
Ltac flatten_in H := repeat (rewrite <- ?app_assoc in H; simpl in H).
Ltac flatten_goal := repeat (rewrite <- ?app_assoc; simpl).

Ltac by_suffix s X Y c1 c2 H :=
  let Hc := fresh "Hc" in
  assert (Hc : c1 = c2);
  [ apply (suffix_clash s X Y c1 c2); flatten_goal; flatten_in H;
    first [exact H | symmetry; exact H]
  | discriminate Hc ].

Ltac by_prefix s X Y c1 c2 H :=
  let Hc := fresh "Hc" in
  assert (Hc : c1 = c2);
  [ apply (prefix_clash s X Y c1 c2); flatten_goal; flatten_in H;
    first [exact H | symmetry; exact H]
  | discriminate Hc ].

(** What a distributive or commutator rule builds is never the tree it
    is given put next to another operand. *)
Section Renderings.
Variables (A B C D z : list ascii) (o p : ascii).
Local Open Scope list_scope.
Local Open Scope char_scope.

Lemma both_sums_left : both_sums_expanded A B C D <> z ++ separated o (both_sums A B C D).
Proof.
  unfold both_sums_expanded, both_sums, in_parens, separated. intros H.
  by_suffix D
    (z ++ " " :: o :: " " :: chars "(" ++ A ++ chars " + " ++ B ++ chars ") * (" ++ C
       ++ chars " + ")
    (A ++ chars " * " ++ C ++ chars " + " ++ A ++ chars " * " ++ D ++ chars " + "
       ++ B ++ chars " * " ++ C ++ chars " + " ++ B ++ chars " *")
    ")" " " H.
Qed.

Lemma both_sums_right : both_sums_expanded A B C D <> both_sums A B C D ++ separated o z.
Proof.
  unfold both_sums_expanded, both_sums, in_parens, separated. intros H.
  by_prefix A
    (chars " + " ++ B ++ chars ") * (" ++ C ++ chars " + " ++ D ++ chars ")"
       ++ " " :: o :: " " :: z)
    (chars "* " ++ C ++ chars " + " ++ A ++ chars " * " ++ D ++ chars " + "
       ++ B ++ chars " * " ++ C ++ chars " + " ++ B ++ chars " * " ++ D)
    "(" " " H.
Qed.

Lemma left_sum_left : left_sum_expanded p A B C <> z ++ separated o (left_sum p A B C).
Proof.
  unfold left_sum_expanded, left_sum, in_parens, separated. intros H.
  assert (H' : A ++ chars " * " ++ C ++ " " :: p :: " " :: B
               = z ++ " " :: o :: " " :: "(" :: A ++ " " :: p :: " " :: B ++ [")"]).
  { apply (app_inv_tail (chars " * " ++ C)). flatten_goal. flatten_in H. exact H. }
  by_suffix B
    (z ++ " " :: o :: " " :: "(" :: A ++ " " :: p :: [" "])
    (A ++ chars " * " ++ C ++ " " :: [p])
    ")" " " H'.
Qed.

Lemma left_sum_right : left_sum_expanded p A B C <> left_sum p A B C ++ separated o z.
Proof.
  unfold left_sum_expanded, left_sum, in_parens, separated. intros H.
  by_prefix A
    (" " :: p :: " " :: B ++ chars ") * " ++ C ++ " " :: o :: " " :: z)
    (chars "* " ++ C ++ " " :: p :: " " :: B ++ chars " * " ++ C)
    "(" " " H.
Qed.

Lemma right_sum_left : right_sum_expanded p A B C <> z ++ separated o (right_sum p A B C).
Proof.
  unfold right_sum_expanded, right_sum, in_parens, separated. intros H.
  by_suffix C
    (z ++ " " :: o :: " " :: A ++ chars " * (" ++ B ++ " " :: p :: [" "])
    (A ++ chars " * " ++ B ++ " " :: p :: " " :: A ++ chars " *")
    ")" " " H.
Qed.

Lemma right_sum_right : right_sum_expanded p A B C <> right_sum p A B C ++ separated o z.
Proof.
  unfold right_sum_expanded, right_sum, in_parens, separated. intros H.
  assert (H' : B ++ " " :: p :: " " :: A ++ chars " * " ++ C
               = "(" :: B ++ " " :: p :: " " :: C ++ ")" :: " " :: o :: " " :: z).
  { apply (app_inv_head (A ++ chars " * ")). flatten_goal. flatten_in H. exact H. }
  by_prefix B
    (" " :: p :: " " :: C ++ ")" :: " " :: o :: " " :: z)
    (p :: " " :: A ++ chars " * " ++ C)
    "(" " " H'.
Qed.

Lemma factored_right_shorter (w : list ascii) :
  length w = length (z ++ separated o (two_products A B C D)) ->
  in_parens "+" A C ++ separated "*" B <> w.
Proof.
  unfold two_products, in_parens, separated. intros Hw <-.
  repeat (rewrite ?length_app in Hw; simpl in Hw). lia.
Qed.

Lemma factored_left_shorter (w : list ascii) :
  length w = length (z ++ separated o (two_products A B C D)) ->
  A ++ separated "*" (in_parens "+" B D) <> w.
Proof.
  unfold two_products, in_parens, separated. intros Hw <-.
  repeat (rewrite ?length_app in Hw; simpl in Hw). lia.
Qed.

Lemma bracket_right (Ra Rb : list ascii) :
  bare_or_in_parens Ra A ->
  commutator_expanded A B <> bracket Ra Rb ++ separated o z.
Proof.
  unfold commutator_expanded, bracket, separated. intros [-> | ->] H.
  - by_prefix Ra
      ("," :: " " :: Rb ++ "]" :: " " :: o :: " " :: z)
      (chars "* " ++ B ++ chars " - " ++ B ++ chars " * " ++ Ra)
      "[" " " H.
  - simpl in H. discriminate H.
Qed.

Lemma bracket_left (Ra Rb : list ascii) :
  o <> " " ->
  bare_or_in_parens Ra A -> bare_or_in_parens Rb B ->
  commutator_expanded A B <> z ++ separated o (bracket Ra Rb).
Proof.
  unfold commutator_expanded, bracket, separated. intros Ho [-> | ->] HB H.
  - assert (Hlen := f_equal (@length ascii) H).
    destruct HB as [-> | ->].
    + repeat (rewrite ?length_app in Hlen; simpl in Hlen).
      assert (Hsplit : (Ra ++ chars " * " ++ Rb) ++ (" " :: "-" :: " " :: Rb ++ chars " * " ++ Ra)
                       = (z ++ [" "]) ++ (o :: " " :: "[" :: Ra ++ "," :: " " :: Rb ++ ["]"])).
      { flatten_goal. flatten_in H. exact H. }
      apply app_inj_1 in Hsplit;
        [| repeat (rewrite ?length_app; simpl); lia].
      destruct Hsplit as [_ Htail]. injection Htail as Hhead _. congruence.
    + repeat (rewrite ?length_app in Hlen; simpl in Hlen).
      assert (Hsplit : (Ra ++ chars " * (" ++ Rb ++ chars ") -")
                         ++ (" " :: "(" :: Rb ++ chars ") * " ++ Ra)
                       = (z ++ [" "]) ++ (o :: " " :: "[" :: Ra ++ "," :: " " :: Rb ++ ["]"])).
      { flatten_goal. flatten_in H. exact H. }
      apply app_inj_1 in Hsplit;
        [| repeat (rewrite ?length_app; simpl); lia].
      destruct Hsplit as [_ Htail]. injection Htail as Hhead _. congruence.
  - assert (Hlast : (z ++ " " :: o :: " " :: "[" :: Ra ++ "," :: " " :: Rb) ++ ["]"]
                    = (("(" :: Ra ++ [")"]) ++ separated "*" (B ++ separated "-"
                         (B ++ chars " * (" ++ Ra))) ++ [")"]).
    { unfold separated. flatten_goal. flatten_in H. symmetry. exact H. }
    apply app_inj_tail in Hlast. destruct Hlast as [_ Hlast]. discriminate Hlast.
Qed.

Lemma question_right : commutator_expanded A B <> question A B ++ separated o z.
Proof.
  unfold commutator_expanded, question, separated. intros H.
  assert (H' : chars " * " ++ B ++ chars " - " ++ B ++ chars " * " ++ A
               = chars " ? " ++ B ++ " " :: o :: " " :: z).
  { apply (app_inv_head A). flatten_goal. flatten_in H. exact H. }
  simpl in H'. discriminate H'.
Qed.

Lemma question_left : o <> "-" -> commutator_expanded A B <> z ++ separated o (question A B).
Proof.
  unfold commutator_expanded, question, separated. intros Ho H.
  assert (Hlen := f_equal (@length ascii) H).
  repeat (rewrite ?length_app in Hlen; simpl in Hlen).
  assert (Hsplit : (A ++ chars " * " ++ B ++ [" "]) ++ ("-" :: " " :: B ++ chars " * " ++ A)
                   = (z ++ [" "]) ++ (o :: " " :: A ++ chars " ? " ++ B)).
  { flatten_goal. flatten_in H. exact H. }
  apply app_inj_1 in Hsplit; [| repeat (rewrite ?length_app; simpl); lia].
  destruct Hsplit as [_ Htail]. injection Htail as Hhead _. congruence.
Qed.

End Renderings.

(** ** The rewrites of the default rules, as rendered *)

Lemma operator_symbol_char (t : ExpressionType) :
  operator_symbol t = String (operator_char t) "".
Proof. destruct t; reflexivity. Qed.

Lemma chars_to_string_binary (t : ExpressionType) (l r : Expression) :
  chars (to_string (BinaryOpExpression t l r))
  = (operand_chars l ++ separated (operator_char t) (operand_chars r))%list.
Proof.
  rewrite chars_binary, operator_symbol_char. reflexivity.
Qed.

Lemma operand_chars_sum_like (t : ExpressionType) (l r : Expression) :
  t = ADD \/ t = SUBTRACT ->
  operand_chars (BinaryOpExpression t l r)
  = in_parens (operator_char t) (operand_chars l) (operand_chars r).
Proof.
  intros Ht. unfold operand_chars at 1, rendered_operand.
  change (type (BinaryOpExpression t l r)) with t.
  destruct (decide (t = ADD \/ t = SUBTRACT)); [| contradiction].
  rewrite !chars_append, chars_to_string_binary. unfold in_parens. simpl.
  rewrite <- !app_assoc. reflexivity.
Qed.

Lemma operand_chars_bare (e : Expression) :
  type e <> ADD -> type e <> SUBTRACT -> operand_chars e = chars (to_string e).
Proof.
  intros Hadd Hsub. unfold operand_chars, rendered_operand.
  destruct (decide (type e = ADD \/ type e = SUBTRACT)); [tauto | reflexivity].
Qed.

Lemma operand_chars_bare_or_in_parens (e : Expression) :
  bare_or_in_parens (chars (to_string e)) (operand_chars e).
Proof.
  unfold bare_or_in_parens, operand_chars, rendered_operand.
  destruct (decide (type e = ADD \/ type e = SUBTRACT)); [right | left; reflexivity].
  rewrite !chars_append. reflexivity.
Qed.

Lemma operand_chars_clone (e : Expression) : operand_chars (clone e) = operand_chars e.
Proof.
  unfold operand_chars, rendered_operand. rewrite type_clone, to_string_clone. reflexivity.
Qed.

Lemma chars_to_string_clone (e : Expression) :
  chars (to_string (clone e)) = chars (to_string e).
Proof. rewrite to_string_clone. reflexivity. Qed.

Lemma chars_to_string_sum_of_four (a b c d : Expression) :
  chars (to_string (SumExpression [a; b; c; d] [1%float; 1%float; 1%float; 1%float]))
  = (chars (to_string a) ++ separated "+" (chars (to_string b) ++ separated "+"
       (chars (to_string c) ++ separated "+" (chars (to_string d)))))%list.
Proof.
  rewrite to_string_sum_of_four, !chars_append. unfold separated. simpl.
  rewrite app_nil_r. reflexivity.
Qed.

Lemma chars_to_string_commutator (a b : Expression) :
  chars (to_string (CommutatorExpression a b))
  = bracket (chars (to_string a)) (chars (to_string b)).
Proof.
  change (to_string (CommutatorExpression a b))
    with ("[" +:+ to_string a +:+ ", " +:+ to_string b +:+ "]").
  rewrite !chars_append. unfold bracket. simpl. rewrite <- ?app_assoc. reflexivity.
Qed.

Ltac render :=
  unfold add, subtract, multiply;
  repeat first
    [ rewrite operand_chars_clone
    | rewrite chars_to_string_clone
    | rewrite chars_to_string_sum_of_four
    | rewrite chars_to_string_commutator
    | rewrite chars_to_string_binary
    | rewrite (operand_chars_sum_like ADD) by (left; reflexivity)
    | rewrite (operand_chars_sum_like SUBTRACT) by (right; reflexivity)
    | rewrite (operand_chars_bare (BinaryOpExpression MULTIPLY _ _)) by discriminate
    | rewrite (operand_chars_bare (BinaryOpExpression Expr.COMMUTATOR _ _)) by discriminate
    | rewrite (operand_chars_bare (CommutatorExpression _ _)) by discriminate ];
  cbn [operator_char].

Lemma distributive_rewrite_renders (u t2 : Expression) (z : list ascii) (o : ascii) :
  distributive_rewrite u t2 ->
  chars (to_string t2) <> (z ++ separated o (operand_chars u))%list
  /\ chars (to_string t2) <> (operand_chars u ++ separated o z)%list.
Proof.
  intros Hstep. destruct Hstep; render.
  - split; [apply both_sums_left | apply both_sums_right].
  - split; [apply left_sum_left | apply left_sum_right].
  - split; [apply right_sum_left | apply right_sum_right].
  - split; apply factored_right_shorter with (z := z) (o := o) (D := operand_chars r1);
      unfold two_products, in_parens, separated;
      repeat (rewrite ?length_app; simpl); lia.
  - split; apply factored_left_shorter with (z := z) (o := o) (C := operand_chars r0);
      unfold two_products, in_parens, separated;
      repeat (rewrite ?length_app; simpl); lia.
  - split; [apply right_sum_left | apply right_sum_right].
  - split; [apply left_sum_left | apply left_sum_right].
Qed.

Lemma chars_to_string_zero : chars (to_string zero) = chars "0=0".
Proof. rewrite to_string_zero. reflexivity. Qed.

Lemma commutator_rewrite_renders (u t2 : Expression) (z : list ascii) (o : ascii) :
  o <> " "%char -> o <> "-"%char ->
  commutator_rewrite u t2 ->
  chars (to_string t2) <> (z ++ separated o (operand_chars u))%list
  /\ chars (to_string t2) <> (operand_chars u ++ separated o z)%list.
Proof.
  intros Hspace Hminus Hstep. destruct Hstep; render; rewrite ?chars_to_string_zero.
  - split; intros H; apply (f_equal (@length ascii)) in H;
      unfold bracket, separated in H;
      repeat (rewrite ?length_app in H; simpl in H); lia.
  - split; intros H; apply (f_equal (@length ascii)) in H;
      unfold separated in H;
      repeat (rewrite ?length_app in H; simpl in H); lia.
  - split.
    + apply bracket_left; [exact Hspace | apply operand_chars_bare_or_in_parens ..].
    + apply bracket_right. apply operand_chars_bare_or_in_parens.
  - split; [apply question_left; exact Hminus | apply question_right].
Qed.

(** ** What the default rules return *)

Lemma type_of_binary_operation (e : Expression) (t : ExpressionType) :
  type e = t -> t = ADD \/ t = SUBTRACT \/ t = MULTIPLY ->
  exists l r, e = BinaryOpExpression t l r.
Proof.
  destruct e as [s | t' l r | a b | cs coeffs]; simpl; intros <- Ht.
  - destruct Ht as [Ht | [Ht | Ht]]; discriminate Ht.
  - exists l, r. reflexivity.
  - destruct Ht as [Ht | [Ht | Ht]]; discriminate Ht.
  - destruct Ht as [Ht | [Ht | Ht]]; discriminate Ht.
Qed.

Lemma factor_common_terms_add (l r : Expression) :
  DistributiveRules.factor_common_terms (add l r)
  = if ExpressionType_eqb (type l) MULTIPLY && ExpressionType_eqb (type r) MULTIPLY then
      if is_binary l && is_binary r then
        l0 ← child 0 l; l1 ← child 1 l; r0 ← child 0 r; r1 ← child 1 r;
        if equals l1 r1 then Some (multiply (add (clone l0) (clone r0)) (clone l1))
        else if equals l0 r0 then Some (multiply (clone l0) (add (clone l1) (clone r1)))
        else None
      else None
    else None.
Proof. reflexivity. Qed.

Lemma distribute_over_subtraction_multiply (l r : Expression) :
  DistributiveRules.distribute_over_subtraction (multiply l r)
  = if ExpressionType_eqb (type r) SUBTRACT && is_binary r then
      b ← child 0 r; c ← child 1 r;
      Some (subtract (multiply (clone l) (clone b)) (multiply (clone l) (clone c)))
    else if ExpressionType_eqb (type l) SUBTRACT && is_binary l then
      a ← child 0 l; b ← child 1 l;
      Some (subtract (multiply (clone a) (clone r)) (multiply (clone b) (clone r)))
    else None.
Proof. reflexivity. Qed.

Ltac binary_operand e t H :=
  let l := fresh "l" in
  let r := fresh "r" in
  let He := fresh "He" in
  apply ExpressionType_eqb_eq in H;
  destruct (type_of_binary_operation e t H) as (l & r & He);
  [ tauto | subst e ].

Lemma apply_three_rules (rule1 rule2 rule3 : Rule) (e t : Expression) :
  apply_rules e [rule1; rule2; rule3] = Some t ->
  rule1 e = Some t \/ rule2 e = Some t \/ rule3 e = Some t.
Proof.
  simpl. destruct (rule1 e); [tauto |]. destruct (rule2 e); [tauto |].
  destruct (rule3 e); [tauto | discriminate].
Qed.

Lemma distribute_multiplication_rewrite (u t2 : Expression) :
  DistributiveRules.distribute_multiplication u = Some t2 -> distributive_rewrite u t2.
Proof.
  intros H. destruct u as [s | t l r | a b | cs coeffs]; try discriminate H.
  destruct t; try discriminate H.
  change (DistributiveRules.distribute_multiplication (multiply l r) = Some t2) in H.
  rewrite distribute_multiplication_multiply in H.
  unfold DistributiveRules.is_add_or_sum in H.
  destruct (ExpressionType_eqb (type l) ADD) eqn:Hla.
  - binary_operand l ADD Hla. simpl in H.
    destruct (ExpressionType_eqb (type r) ADD) eqn:Hra.
    + binary_operand r ADD Hra. simpl in H. injection H as <-. apply rewrite_both_sums.
    + simpl in H. destruct (ExpressionType_eqb (type r) SUM); simpl in H;
        [discriminate H | injection H as <-; apply rewrite_left_sum].
  - simpl in H. destruct (ExpressionType_eqb (type l) SUM); simpl in H.
    + destruct (ExpressionType_eqb (type r) ADD || ExpressionType_eqb (type r) SUM);
        discriminate H.
    + destruct (ExpressionType_eqb (type r) ADD) eqn:Hra; simpl in H.
      * binary_operand r ADD Hra. simpl in H. injection H as <-. apply rewrite_right_sum.
      * destruct (ExpressionType_eqb (type r) SUM); discriminate H.
Qed.

Lemma factor_common_terms_rewrite (u t2 : Expression) :
  DistributiveRules.factor_common_terms u = Some t2 -> distributive_rewrite u t2.
Proof.
  intros H. destruct u as [s | t l r | a b | cs coeffs]; try discriminate H.
  destruct t; try discriminate H.
  change (DistributiveRules.factor_common_terms (add l r) = Some t2) in H.
  rewrite factor_common_terms_add in H.
  destruct (ExpressionType_eqb (type l) MULTIPLY) eqn:Hl; [| discriminate H].
  destruct (ExpressionType_eqb (type r) MULTIPLY) eqn:Hr; [| discriminate H].
  binary_operand l MULTIPLY Hl. binary_operand r MULTIPLY Hr.
  simpl in H.
  destruct (equals _ _); [injection H as <-; apply rewrite_factor_right |].
  destruct (equals _ _); [injection H as <-; apply rewrite_factor_left | discriminate H].
Qed.

Lemma distribute_over_subtraction_rewrite (u t2 : Expression) :
  DistributiveRules.distribute_over_subtraction u = Some t2 -> distributive_rewrite u t2.
Proof.
  intros H. destruct u as [s | t l r | a b | cs coeffs]; try discriminate H.
  destruct t; try discriminate H.
  change (DistributiveRules.distribute_over_subtraction (multiply l r) = Some t2) in H.
  rewrite distribute_over_subtraction_multiply in H.
  destruct (ExpressionType_eqb (type r) SUBTRACT) eqn:Hr.
  - binary_operand r SUBTRACT Hr. simpl in H. injection H as <-.
    apply rewrite_right_difference.
  - simpl in H. destruct (ExpressionType_eqb (type l) SUBTRACT) eqn:Hl; [| discriminate H].
    binary_operand l SUBTRACT Hl. simpl in H. injection H as <-.
    apply rewrite_left_difference.
Qed.

Lemma distributive_rules_rewrite (u t2 : Expression) :
  apply_rules u default_distributive_rules = Some t2 -> distributive_rewrite u t2.
Proof.
  intros H. apply apply_three_rules in H. destruct H as [H | [H | H]].
  - apply distribute_multiplication_rewrite, H.
  - apply factor_common_terms_rewrite, H.
  - apply distribute_over_subtraction_rewrite, H.
Qed.

Lemma commutator_rules_rewrite (u t3 : Expression) :
  apply_rules u default_commutator_rules = Some t3 -> commutator_rewrite u t3.
Proof.
  intros H. apply apply_three_rules in H. destruct H as [H | [H | H]].
  - destruct u as [s | t l r | a b | cs coeffs]; try discriminate H.
    destruct t; discriminate H.
  - destruct u as [s | t l r | a b | cs coeffs]; try discriminate H.
    + destruct t; try discriminate H. simpl in H.
      change (CommutatorRules.zero_commutator (BinaryOpExpression Expr.COMMUTATOR l r))
        with (if equals l r then Some zero else None) in H.
      destruct (equals l r); [injection H as <-; apply rewrite_zero_binary | discriminate H].
    + change (CommutatorRules.zero_commutator (CommutatorExpression a b))
        with (if equals a b then Some zero else None) in H.
      destruct (equals a b); [injection H as <-; apply rewrite_zero_node | discriminate H].
  - destruct u as [s | t l r | a b | cs coeffs]; try discriminate H.
    + destruct t; try discriminate H. injection H as <-. apply rewrite_expand_binary.
    + injection H as <-. apply rewrite_expand_node.
Qed.

Lemma commutator_rules_skip_distributed (u t2 : Expression) :
  distributive_rewrite u t2 -> apply_rules t2 default_commutator_rules = None.
Proof. intros []; reflexivity. Qed.

Lemma apply_four_rules (rule1 rule2 rule3 rule4 : Rule) (e t : Expression) :
  apply_rules e [rule1; rule2; rule3; rule4] = Some t ->
  rule1 e = Some t \/ rule2 e = Some t \/ rule3 e = Some t \/ rule4 e = Some t.
Proof.
  simpl. destruct (rule1 e); [tauto |]. destruct (rule2 e); [tauto |].
  destruct (rule3 e); [tauto |]. destruct (rule4 e); [tauto | discriminate].
Qed.

Lemma keeps_right_operand (t : ExpressionType) (l r : Expression) :
  t = ADD \/ t = MULTIPLY -> keeps_an_operand (BinaryOpExpression t l r) (clone r).
Proof.
  intros Ht. exists (operand_chars l), (operator_char t). split.
  - destruct Ht as [-> | ->]; [left | right]; reflexivity.
  - left. rewrite chars_to_string_binary, operand_chars_clone. reflexivity.
Qed.

Lemma keeps_left_operand (t : ExpressionType) (l r : Expression) :
  t = ADD \/ t = MULTIPLY -> keeps_an_operand (BinaryOpExpression t l r) (clone l).
Proof.
  intros Ht. exists (operand_chars r), (operator_char t). split.
  - destruct Ht as [-> | ->]; [left | right]; reflexivity.
  - right. rewrite chars_to_string_binary, operand_chars_clone. reflexivity.
Qed.

Lemma algebraic_rules_rewrite (t0 t1 : Expression) :
  apply_rules t0 default_algebraic_rules = Some t1 ->
  (exists s, t1 = SymbolExpression s) \/ keeps_an_operand t0 t1.
Proof.
  intros H. apply apply_four_rules in H. destruct H as [H | [H | [H | H]]].
  - destruct t0 as [s | t l r | a b | cs coeffs]; try discriminate H.
    destruct t; try discriminate H.
    change (AlgebraicRules.identity_addition (add l r) = Some t1) in H.
    rewrite identity_addition_add in H. right.
    destruct (is_scalar_leaf_of_value 0 l);
      [injection H as <-; apply keeps_right_operand; tauto |].
    destruct (is_scalar_leaf_of_value 0 r);
      [injection H as <-; apply keeps_left_operand; tauto | discriminate H].
  - destruct t0 as [s | t l r | a b | cs coeffs]; try discriminate H.
    destruct t; try discriminate H.
    change (AlgebraicRules.identity_multiplication (multiply l r) = Some t1) in H.
    rewrite identity_multiplication_multiply in H. right.
    destruct (is_scalar_leaf_of_value 1 l);
      [injection H as <-; apply keeps_right_operand; tauto |].
    destruct (is_scalar_leaf_of_value 1 r);
      [injection H as <-; apply keeps_left_operand; tauto | discriminate H].
  - destruct t0 as [s | t l r | a b | cs coeffs]; try discriminate H.
    destruct t; try discriminate H.
    change (AlgebraicRules.zero_multiplication (multiply l r) = Some t1) in H.
    rewrite zero_multiplication_multiply in H. left.
    destruct (_ || _); [injection H as <-; eexists; reflexivity | discriminate H].
  - left. destruct t0 as [s | t l r | a b | cs coeffs]; try discriminate H.
    destruct t; try discriminate H.
    + change (match get_scalar_value l, get_scalar_value r with
              | Some lv, Some rv => Some (constant (PrimFloat.add lv rv))
              | _, _ => None
              end = Some t1) in H.
      destruct (get_scalar_value l), (get_scalar_value r); try discriminate H.
      injection H as <-. eexists; reflexivity.
    + change (match get_scalar_value l, get_scalar_value r with
              | Some lv, Some rv => Some (constant (PrimFloat.mul lv rv))
              | _, _ => None
              end = Some t1) in H.
      destruct (get_scalar_value l), (get_scalar_value r); try discriminate H.
      injection H as <-. eexists; reflexivity.
Qed.

Lemma category_outcome_cases (self : Simplifier) (rule_type : RuleType)
    (rules : list Rule) (tree : Expression) :
  rules_ self !! rule_type = Some rules ->
  category_outcome self rule_type tree = tree
  \/ apply_rules tree rules = Some (category_outcome self rule_type tree)
     /\ to_string (category_outcome self rule_type tree) <> to_string tree.
Proof.
  intros Hrules. unfold category_outcome.
  rewrite Hrules, <- apply_rules_first_match.
  destruct (apply_rules tree rules) as [new_tree |]; [| left; reflexivity].
  destruct (decide (to_string new_tree = to_string tree));
    [left; reflexivity | right; split; [reflexivity | assumption]].
Qed.

Lemma chars_differ (s1 s2 : string) : chars s1 <> chars s2 -> s1 <> s2.
Proof. intros Hdiff ->. apply Hdiff. reflexivity. Qed.

(** One pass of the default simplifier never renders, at its end, as it
    did at its start after a category has replaced the tree. *)
Lemma default_pass_changed (enable_trace : bool) (st : LoopState) :
  changed (while_body (new enable_trace) st) = true
  <-> to_string (result (while_body (new enable_trace) st)) <> to_string (result st).
Proof.
  destruct (default_rules enable_trace) as (Ra & Rd & Rc & Rt & Ro & Rs).
  destruct (while_body_outcome (new enable_trace) st) as [Hresult Hchanged].
  cbv zeta in Hresult, Hchanged.
  rewrite (category_outcome_unregistered _ _ _ Rs) in Hresult, Hchanged.
  rewrite (category_outcome_unregistered _ _ _ Ro) in Hresult, Hchanged.
  rewrite (category_outcome_unregistered _ _ _ Rt) in Hresult, Hchanged.
  rewrite Hresult, Hchanged. clear Hresult Hchanged.
  set (self := new enable_trace) in *. set (t0 := result st).
  destruct (category_outcome_cases self ALGEBRAIC _ t0 Ra) as [Ht1 | [Halg Hdiff1]].
  - rewrite Ht1.
    destruct (category_outcome_cases self DISTRIBUTIVE _ t0 Rd) as [Ht2 | [Hdist Hdiff2]].
    + rewrite Ht2. tauto.
    + apply distributive_rules_rewrite, commutator_rules_skip_distributed in Hdist.
      rewrite (category_outcome_no_match _ _ _ _ Rc Hdist). tauto.
  - set (t1 := category_outcome self ALGEBRAIC t0) in *.
    destruct (algebraic_rules_rewrite _ _ Halg) as [[s Hs] | (z & o & Ho & Hshape)].
    + rewrite Hs in *.
      rewrite (category_outcome_no_match _ _ _ (SymbolExpression s) Rd eq_refl).
      rewrite (category_outcome_no_match _ _ _ (SymbolExpression s) Rc eq_refl). tauto.
    + destruct (category_outcome_cases self DISTRIBUTIVE _ t1 Rd) as [Ht2 | [Hdist Hdiff2]].
      * rewrite Ht2.
        destruct (category_outcome_cases self COMMUTATOR _ t1 Rc) as [Ht3 | [Hcomm Hdiff3]];
          [rewrite Ht3; tauto |].
        apply commutator_rules_rewrite in Hcomm.
        assert (Hends : to_string (category_outcome self COMMUTATOR t1) <> to_string t0).
        { apply chars_differ.
          apply (commutator_rewrite_renders _ _ z o) in Hcomm;
            [| destruct Ho as [-> | ->]; discriminate ..].
          destruct Hshape as [-> | ->]; tauto. }
        tauto.
      * apply distributive_rules_rewrite in Hdist.
        rewrite (category_outcome_no_match _ _ _ _ Rc
                   (commutator_rules_skip_distributed _ _ Hdist)).
        assert (Hends : to_string (category_outcome self DISTRIBUTIVE t1) <> to_string t0).
        { apply chars_differ.
          apply (distributive_rewrite_renders _ _ z o) in Hdist.
          destruct Hshape as [-> | ->]; tauto. }
        tauto.
Qed.

(** C2. One pass of the loop of [simplify] takes the tree through the
    categories in the order Algebraic, Distributive, Commutator, Tensor,
    Operator, Symmetry, each category working on the tree the one before it
    left.  A category without a rule list, or none of whose rules matches,
    leaves the tree; otherwise the replacement of its first matching rule is
    compared, as rendered, with the tree it would replace.  The pass counts
    as a change exactly when one of those replacements renders otherwise
    than the tree before it.  [apply_rules] returns what the first rule, in
    list order, with a result returns; the rules after it play no part.
    For the simplifier the constructor builds, whose rule table is the
    default one, the pass counts as a change exactly when the tree at its
    end renders otherwise than the tree at its start. *)
Theorem simplify_pass_order_and_change (self : Simplifier) (st : LoopState) :
  let t0 := result st in
  let t1 := category_outcome self ALGEBRAIC t0 in
  let t2 := category_outcome self DISTRIBUTIVE t1 in
  let t3 := category_outcome self COMMUTATOR t2 in
  let t4 := category_outcome self TENSOR t3 in
  let t5 := category_outcome self OPERATOR t4 in
  let t6 := category_outcome self SYMMETRY t5 in
  result (while_body self st) = t6
  /\ (changed (while_body self st) = true
      <-> to_string t1 <> to_string t0 \/ to_string t2 <> to_string t1
          \/ to_string t3 <> to_string t2 \/ to_string t4 <> to_string t3
          \/ to_string t5 <> to_string t4 \/ to_string t6 <> to_string t5)
  /\ (forall rules e, apply_rules e rules = first_match rules e)
  /\ (forall rules e r,
        apply_rules e rules = Some r
        <-> exists (before : list Rule) (rule : Rule) (after : list Rule),
              rules = (before ++ rule :: after)%list
              /\ Forall (fun earlier : Rule => earlier e = None) before
              /\ rule e = Some r)
  /\ (forall rules e,
        apply_rules e rules = None <-> Forall (fun rule : Rule => rule e = None) rules)
  /\ (forall enable_trace st',
        changed (while_body (new enable_trace) st') = true
        <-> to_string (result (while_body (new enable_trace) st'))
            <> to_string (result st')).
Proof.
  intros t0 t1 t2 t3 t4 t5 t6.
  destruct (while_body_outcome self st) as [Hresult Hchanged].
  split; [exact Hresult |].
  split; [exact Hchanged |].
  split; [| split; [| split]].
  - exact apply_rules_first_match.
  - exact apply_rules_some.
  - exact apply_rules_none.
  - exact default_pass_changed.
Qed.
